(** * ShellDeck release pipeline: [scripts/release.sh]

    A shallow embedding of the release script: the text utilities it pipes
    the manifest through ([grep], [head], [sed], [read] with [IFS='.']),
    the shell's 64-bit arithmetic, the git commands it issues against the
    local repository and [origin], the CI-run discovery loop of
    [cmd_monitor] and the artifact verification of [cmd_check].

    The script runs under [set -euo pipefail]: a command that fails outside
    a condition ends it. A run is a function from the state of the world
    (both repositories, the commits, standard input, the commands issued so
    far) to an outcome and a new state. What the script only prints (the
    banners, the probe lines) is left out. Text is a sequence of bytes.

    Several pipelines of the script end in a stage that stops reading
    early ([head], [grep -q]). Under [pipefail] the fate of the stage
    before it then decides the status of the pipeline. This is part of the
    model for the three of them whose writer can have more than one line
    to write: the read of the version, the list of the recent commits and
    the test for an expected artifact (section "Pipes under pipefail").
    [git tag -l] and [git ls-remote] print one line for the tag, and a
    failure of [gh run list | head -1] is caught by [|| echo]. Signals
    have their default disposition. *)

From Stdlib Require Import ZArith Ascii String List Bool Lia.
From stdpp Require Import base option gmap strings list fin_maps.

Local Open Scope string_scope.

(** ** Characters and text *)

Definition LF : ascii := "010"%char.
Definition DQUOTE : ascii := "034"%char.
Definition DOT : ascii := "."%char.
Definition SPACE : ascii := " "%char.
Definition TAB : ascii := "009"%char.

(** [str c] is the one-character string, [quoted s] is [s] between double
    quotes. *)
Definition str (c : ascii) : string := String c EmptyString.
Definition quoted (s : string) : string := str DQUOTE +:+ s +:+ str DQUOTE.

(** Text is cut into lines at every newline; [unlines] is the inverse. A
    file that ends in a newline has an empty last piece. *)
Fixpoint split_on (d : ascii) (s : string) : list string :=
  match s with
  | EmptyString => [EmptyString]
  | String c s' =>
      if Ascii.eqb c d then EmptyString :: split_on d s'
      else match split_on d s' with
           | [] => [str c]
           | w :: ws => String c w :: ws
           end
  end.

Definition lines (s : string) : list string := split_on LF s.
Definition unlines (ls : list string) : string := String.concat (str LF) ls.

(** [cut d s]: the text before and after the first [d] of [s]. *)
Fixpoint cut (d : ascii) (s : string) : option (string * string) :=
  match s with
  | EmptyString => None
  | String c s' =>
      if Ascii.eqb c d then Some (EmptyString, s')
      else match cut d s' with
           | Some (a, b) => Some (String c a, b)
           | None => None
           end
  end.

(** [starts_with p s]: the text [s] begins with [p]. *)
Fixpoint starts_with (p s : string) : bool :=
  match p with
  | EmptyString => true
  | String a p' =>
      match s with
      | EmptyString => false
      | String b s' => Ascii.eqb a b && starts_with p' s'
      end
  end.

(** Fixed-string containment, as [grep -F] and jq's [contains] decide it. *)
Fixpoint contains (pat s : string) : bool :=
  starts_with pat s ||
  match s with
  | EmptyString => false
  | String _ s' => contains pat s'
  end.

(** The blanks that [read] drops at both ends of a line. *)
Fixpoint ltrim (s : string) : string :=
  match s with
  | String c s' => if Ascii.eqb c SPACE || Ascii.eqb c TAB then ltrim s' else s
  | EmptyString => EmptyString
  end.
Definition string_rev (s : string) : string :=
  String.string_of_list_ascii (rev (String.list_ascii_of_string s)).
Definition trim (s : string) : string := string_rev (ltrim (string_rev (ltrim s))).

Definition is_digit (c : ascii) : bool :=
  (48 <=? nat_of_ascii c)%nat && (nat_of_ascii c <=? 57)%nat.

Definition digit_val (c : ascii) : Z := Z.of_nat (nat_of_ascii c) - 48.

Fixpoint all_chars (p : ascii -> bool) (s : string) : bool :=
  match s with
  | EmptyString => true
  | String c s' => p c && all_chars p s'
  end.

(** The regular expression [^v[0-9]] of the commit-message check. *)
Definition starts_v_digit (s : string) : bool :=
  match s with
  | String a (String c _) => Ascii.eqb a "v" && is_digit c
  | _ => false
  end.

(** ** Shell arithmetic

    [$((...))] computes in [intmax_t]: 64-bit two's complement. *)

Local Open Scope Z_scope.

Definition wrap64 (z : Z) : Z := (z + 2 ^ 63) mod 2 ^ 64 - 2 ^ 63.

(** Decimal printing. The recursion is on the binary digits of [fuel],
    which are at least as many as the decimal digits of the number. *)
Definition digit_char (d : Z) : ascii := ascii_of_nat (Z.to_nat (48 + d)).

Fixpoint show_pos_fuel (fuel : positive) (n : Z) : string :=
  if n <? 10 then str (digit_char n)
  else match fuel with
       | xH => str (digit_char (n mod 10))
       | xO f | xI f => show_pos_fuel f (n / 10) +:+ str (digit_char (n mod 10))
       end.

Definition show_nat (n : Z) : string := show_pos_fuel (Z.to_pos n) n.

Definition show_Z (z : Z) : string :=
  if z <? 0 then String "-" (show_nat (- z)) else show_nat z.

(** The literal reader of the shell ([strlong] in bash's expr.c): a leading
    0 selects octal, a digit that is not below the base is the error
    "value too great for base"; the accumulator is an [intmax_t]. *)
Fixpoint strlong_loop (base val : Z) (s : string) : option Z :=
  match s with
  | EmptyString => Some val
  | String c s' =>
      if is_digit c && (digit_val c <? base)
      then strlong_loop base (wrap64 (val * base + digit_val c)) s'
      else None
  end.

Definition strlong (s : string) : option Z :=
  match s with
  | String c s' =>
      if Ascii.eqb c "0"
      then match s' with
           | EmptyString => Some 0
           | _ => strlong_loop 8 0 s'
           end
      else strlong_loop 10 0 s
  | EmptyString => Some 0
  end.

(** The value of a shell variable inside [$((...))]. A null value is 0 and
    a run of digits is a literal; any other text is itself evaluated as an
    expression over further shell variables, which this model does not
    follow ([NotLiteral]). *)
Inductive arith : Type :=
  | Num (z : Z)
  | ArithError
  | NotLiteral.

Definition arith_var (v : string) : arith :=
  match v with
  | EmptyString => Num 0
  | _ => if all_chars is_digit v
         then match strlong v with
              | Some z => Num z
              | None => ArithError
              end
         else NotLiteral
  end.

(** [$((VAR + 1))] *)
Definition arith_succ (v : string) : arith :=
  match arith_var v with
  | Num z => Num (wrap64 (z + 1))
  | a => a
  end.

Local Close Scope Z_scope.

(** ** Outcomes of a script fragment

    [Exit n] is the script ending with status [n] ([die], or a failing
    command under [set -e]); [Beyond] marks an input on which the script
    leaves the modelled fragment of the shell. *)
Inductive outcome (A : Type) : Type :=
  | Done (a : A)
  | Exit (code : nat)
  | Beyond.
Arguments Done {A} a.
Arguments Exit {A} code.
Arguments Beyond {A}.

(** ** Pipes under [pipefail]

    A stage that stops reading before its input ends leaves the stage
    before it writing into a closed pipe. That writer is killed by
    SIGPIPE, its status is 141, and with [pipefail] the pipeline fails
    although its last stage succeeded. Whether the writer is hit depends
    on how far it has come when the reader leaves:
    - an output of at most one block ([PIPE_BLOCK], the buffer of the
      writer's standard output on a pipe) is handed over in one write,
      which is over before the reader has seen anything;
    - a reader that leaves at the last line of the output leaves nothing
      unwritten;
    - when more follows the line at which the reader leaves than a pipe
      and the reader's last read hold together ([PIPE_FULL], twice the
      65536 bytes of a pipe), the writer still has to write, and is
      killed;
    - in between the outcome is a matter of timing, and the model stops
      ([Timing]). *)

Local Open Scope Z_scope.

Fixpoint bytes (s : string) : Z :=
  match s with
  | EmptyString => 0
  | String _ s' => 1 + bytes s'
  end.

(** The bytes of a list of lines, each with its newline. *)
Fixpoint text_bytes (ls : list string) : Z :=
  match ls with
  | [] => 0
  | l :: rest => bytes l + 1 + text_bytes rest
  end.

Definition PIPE_BLOCK : Z := 4096.
Definition PIPE_FULL : Z := 131072.

Inductive pipe_fate : Type := Drained | Broken | Timing.

(** The fate of a writer of [total] bytes whose reader leaves when
    [after] bytes are still to follow the line it was waiting for. *)
Definition writer_fate (total after : Z) : pipe_fate :=
  if total <=? PIPE_BLOCK then Drained
  else if after =? 0 then Drained
  else if PIPE_FULL <? after then Broken
  else Timing.

(** The bytes that follow the first line in [hit]; nothing when no line
    is, and the reader reads to the end. *)
Fixpoint after_first (hit : string -> bool) (ls : list string) : option Z :=
  match ls with
  | [] => None
  | l :: rest => if hit l then Some (text_bytes rest) else after_first hit rest
  end.

Local Close Scope Z_scope.

(** The bytes that are text in every locale: ASCII without NUL. *)
Definition text_byte (c : ascii) : bool :=
  (1 <=? nat_of_ascii c)%nat && (nat_of_ascii c <=? 127)%nat.

(** ** VersionStore: reading the manifest *)

Definition CARGO_TOML : string := "Cargo.toml".
Definition CARGO_LOCK : string := "Cargo.lock".

(** [sed 's/.*"\(.*\)".*/\1/'] on one line: the leading [.*] is greedy, so
    the group is the text between the last two double quotes; a line with
    fewer than two quotes is printed as it is. *)
Definition sed_capture_quoted (line : string) : string :=
  match cut DQUOTE (string_rev line) with
  | Some (_, r1) =>
      match cut DQUOTE r1 with
      | Some (g, _) => string_rev g
      | None => line
      end
  | None => line
  end.

(** [grep '^version' "$CARGO_TOML" | head -1 | sed ...]. With [pipefail]
    the pipeline has the status of [grep] when that fails: 1 when no line
    is selected, 2 when the file does not exist, and 141 when [head] has
    left with the first line while [grep] still writes the others. On a
    file with a byte outside ASCII or a NUL, what [grep] takes for text
    depends on the locale, and the model stops. *)
Definition current_version (manifest : option string) : outcome string :=
  match manifest with
  | None => Exit 2
  | Some text =>
      match List.filter (starts_with "version") (lines text) with
      | [] => Exit 1
      | l :: rest =>
          if negb (all_chars text_byte text) then Beyond
          else match writer_fate (text_bytes (l :: rest)) (text_bytes rest) with
               | Drained => Done (sed_capture_quoted l)
               | Broken => Exit 141
               | Timing => Beyond
               end
      end
  end.

(** [IFS='.' read -r MAJOR MINOR PATCH]: the first two fields go to the
    first two variables and the last variable takes the rest of the line
    with its separators, except that a rest made of one field and one
    closing separator loses that separator. *)
Definition last_field (r : string) : string :=
  match cut DOT r with
  | Some (w, EmptyString) => w
  | _ => r
  end.

Definition read_ifs_dot (s : string) : string * string * string :=
  match cut DOT s with
  | None => (s, EmptyString, EmptyString)
  | Some (a, r1) =>
      match cut DOT r1 with
      | None => (a, r1, EmptyString)
      | Some (b, r2) => (a, b, last_field r2)
      end
  end.

Inductive bump_type : Type := patch | minor | major.

Definition dotted (a b c : string) : string := a +:+ "." +:+ b +:+ "." +:+ c.

(** Lines 384-392: split, bump the chosen component, reassemble. An error
    of the arithmetic ("value too great for base") is an expansion error:
    the shell prints it, abandons the [case] command with every assignment
    of its branch, and goes on with the next command, under [set -e] too.
    The three variables are then as [read] left them. *)
Definition bump (kind : bump_type) (cur : string) : outcome string :=
  let '(MAJOR, MINOR, PATCH) := read_ifs_dot cur in
  match kind with
  | patch =>
      match arith_succ PATCH with
      | Num p => Done (dotted MAJOR MINOR (show_Z p))
      | ArithError => Done (dotted MAJOR MINOR PATCH)
      | NotLiteral => Beyond
      end
  | minor =>
      match arith_succ MINOR with
      | Num n => Done (dotted MAJOR (show_Z n) "0")
      | ArithError => Done (dotted MAJOR MINOR PATCH)
      | NotLiteral => Beyond
      end
  | major =>
      match arith_succ MAJOR with
      | Num m => Done (dotted (show_Z m) "0" "0")
      | ArithError => Done (dotted MAJOR MINOR PATCH)
      | NotLiteral => Beyond
      end
  end.

Definition tag_of (version : string) : string := String "v" version.

(** ** The version rewrite

    [sed -i "s/^version = \"$CURRENT_VERSION\"/version = \"$NEW_VERSION\"/"].
    The current version is spliced into a basic regular expression and the
    new one into a replacement. [bre_match] is the match of an expression
    made of ordinary characters and dots, where a dot stands for any
    character; it says nothing about an expression with another special
    character in it, nor does [sed_version] about such a version:
    [sed_ordinary] tells the versions it is about, [update_version] stops
    on any other, and every statement about the rewrite assumes it. *)

Fixpoint bre_match (pat s : string) : option string :=
  match pat, s with
  | EmptyString, _ => Some s
  | String p pat', String c s' =>
      if Ascii.eqb p DOT || Ascii.eqb p c then bre_match pat' s' else None
  | String _ _, EmptyString => None
  end.

(** Characters that are ordinary both in the pattern (apart from the dot)
    and in the replacement of an [s/.../.../] command. *)
Definition sed_ordinary (c : ascii) : bool :=
  negb (existsb (Ascii.eqb c)
          ["*"; "["; "]"; "\"; "^"; "$"; "/"; "&"; LF]%char).

Definition version_prefix (v : string) : string := "version = " +:+ quoted v.

Definition sed_version_line (cur new line : string) : string :=
  match bre_match (version_prefix cur) line with
  | Some rest => version_prefix new +:+ rest
  | None => line
  end.

Definition sed_version (cur new text : string) : string :=
  unlines (map (sed_version_line cur new) (lines text)).

(** ** The repositories

    Commits live in one content-addressed store shared by the local
    repository and [origin]; an object id is a position in that store, and
    the transfer of objects by [fetch] and [push] is not modelled. A tag
    is a name for a commit, as [git tag TAG] makes it: [git tag -l] and
    [git ls-remote] then print one line for it. *)

Record commit : Type := Commit {
  c_parents : list nat;
  c_tree : gmap string string;
  c_message : string
}.

Inductive head_ref : Type :=
  | OnBranch (b : string)
  | Detached (c : nat).

Record repo : Type := Repo {
  worktree : gmap string string;
  index : gmap string string;
  HEAD : head_ref;
  heads : gmap string nat;
  tags : gmap string nat;
  remotes : gmap string nat
}.

Record origin : Type := Origin {
  o_heads : gmap string nat;
  o_tags : gmap string nat
}.

(** What the script does to the outside, in order. *)
Inductive event : Type :=
  | GitFetchTags
  | GitFetch
  | SedVersion (cur new : string)
  | CargoCheck
  | GitCheckout (paths : list string)
  | GitAdd (paths : list string)
  | GitCommit (msg : string)
  | GitTag (tag : string)
  | GitPush
  | GitPushTag (tag : string)
  | GhRunList
  | Sleep (seconds : nat).

Record world : Type := World {
  local : repo;
  remote : origin;
  objects : list commit;
  stdin : list string;
  trace : list event
}.

(** What the run cannot change: whether [origin] answers, and what
    [cargo check] makes of a working tree (whether it succeeds, and the
    lockfile it writes, if it writes one). *)
Record env : Type := Env {
  online : bool;
  cargo_check : gmap string string -> bool * option string
}.

Definition set_local (f : repo -> repo) (w : world) : world :=
  World (f (local w)) (remote w) (objects w) (stdin w) (trace w).
Definition set_remote (f : origin -> origin) (w : world) : world :=
  World (local w) (f (remote w)) (objects w) (stdin w) (trace w).
Definition set_worktree (t : gmap string string) (r : repo) : repo :=
  Repo t (index r) (HEAD r) (heads r) (tags r) (remotes r).
Definition set_index (t : gmap string string) (r : repo) : repo :=
  Repo (worktree r) t (HEAD r) (heads r) (tags r) (remotes r).
Definition set_tags (t : gmap string nat) (r : repo) : repo :=
  Repo (worktree r) (index r) (HEAD r) (heads r) t (remotes r).
Definition set_remotes (t : gmap string nat) (r : repo) : repo :=
  Repo (worktree r) (index r) (HEAD r) (heads r) (tags r) t.

(** ** The script monad: state, and an early exit *)

Definition M (A : Type) : Type := world -> outcome A * world.

Definition ret {A} (a : A) : M A := fun w => (Done a, w).
Definition exit {A} (code : nat) : M A := fun w => (Exit code, w).
Definition beyond {A} : M A := fun w => (Beyond, w).
Definition bind {A B} (m : M A) (k : A -> M B) : M B :=
  fun w =>
    match m w with
    | (Done a, w') => k a w'
    | (Exit code, w') => (Exit code, w')
    | (Beyond, w') => (Beyond, w')
    end.

Notation "'let*' x ':=' m 'in' k" := (bind m (fun x => k))
  (at level 10, x name, m at level 100, k at level 200).
Notation "m >>> k" := (bind m (fun _ => k))
  (at level 100, k at level 200, right associativity).

Definition get : M world := fun w => (Done w, w).
Definition modify (f : world -> world) : M unit := fun w => (Done tt, f w).
Definition emit (e : event) : M unit :=
  modify (fun w => World (local w) (remote w) (objects w) (stdin w) (trace w ++ [e])).
Definition die {A} : M A := exit 1.
Definition when_ (b : bool) (m : M unit) : M unit := if b then m else ret tt.

(** [read -r VAR]: one line of standard input without the blanks around
    it ([trim]); at end of input [read] fails and [set -e] ends the
    script. *)
Definition read_line : M string :=
  fun w =>
    match stdin w with
    | [] => (Exit 1, w)
    | l :: rest =>
        (Done (trim l), World (local w) (remote w) (objects w) rest (trace w))
    end.

(** ** git *)

Definition head_commit (r : repo) : option nat :=
  match HEAD r with
  | OnBranch b => heads r !! b
  | Detached c => Some c
  end.

Definition head_tree (objs : list commit) (r : repo) : gmap string string :=
  match head_commit r with
  | Some c => match objs !! c with
              | Some cm => c_tree cm
              | None => ∅
              end
  | None => ∅
  end.

(** [git branch --show-current] prints nothing on a detached HEAD. *)
Definition current_branch (r : repo) : string :=
  match HEAD r with
  | OnBranch b => b
  | Detached _ => EmptyString
  end.

(** [git diff --quiet -- ':!a' ':!b']: some tracked path outside the
    excluded ones differs between the index and the working tree. *)
Definition worktree_dirty (excluded : list string) (r : repo) : bool :=
  negb (bool_decide
          (map_Forall (fun p c => p ∈ excluded \/ worktree r !! p = Some c)
                      (index r))).

(** [git diff --cached --quiet]: the index differs from the tree of HEAD. *)
Definition index_dirty (objs : list commit) (r : repo) : bool :=
  negb (bool_decide (index r = head_tree objs r)).

(** [a] is [b] or one of its ancestors. *)
Fixpoint is_ancestor (fuel : nat) (objs : list commit) (a b : nat) : bool :=
  Nat.eqb a b ||
  match fuel with
  | O => false
  | S f => match objs !! b with
           | Some cm => existsb (is_ancestor f objs a) (c_parents cm)
           | None => false
           end
  end.

Definition ancestor (objs : list commit) (a b : nat) : bool :=
  is_ancestor (length objs) objs a b.

Definition ends_with (suffix s : string) : bool :=
  starts_with (string_rev suffix) (string_rev s).

(** Characters that stand for themselves both in the glob of
    [git tag -l] and [git ls-remote] and in the regular expression of
    [grep]; a dot in the expression still matches the dot of the name. *)
Definition pattern_literal (c : ascii) : bool :=
  negb (existsb (Ascii.eqb c) ["*"; "?"; "["; "]"; "\"; "^"; "$"; LF]%char).

(** The rules of [git check-ref-format] for a name under [refs/tags/]. *)
Definition bad_ref_char (c : ascii) : bool :=
  let n := nat_of_ascii c in
  (n <? 32)%nat || (n =? 127)%nat ||
  existsb (Ascii.eqb c) [" "; "~"; "^"; ":"; "?"; "*"; "["; "\"]%char.

Definition valid_component (s : string) : bool :=
  negb (String.eqb s EmptyString) && negb (starts_with "." s) &&
  negb (ends_with ".lock" s).

Definition valid_refname (s : string) : bool :=
  all_chars (fun c => negb (bad_ref_char c)) s &&
  negb (contains ".." s) && negb (contains "@{" s) &&
  negb (ends_with "." s) && negb (starts_with "-" s) &&
  forallb valid_component (split_on "/" s).

(** The refs a fetch brings in. Remote-tracking branches follow [origin];
    a tag that exists locally is never replaced. Without [--tags] only the
    tags that point into the fetched branches are followed. *)
Definition followed_tags (objs : list commit) (o : origin) : gmap string nat :=
  filter (fun kv => Exists (fun h => ancestor objs (snd kv) (snd h) = true)
                           (map_to_list (o_heads o)))
         (o_tags o).

Definition fetched (all_tags : bool) (objs : list commit) (o : origin)
    (r : repo) : repo :=
  set_remotes (o_heads o ∪ remotes r)
    (set_tags (tags r ∪ (if all_tags then o_tags o else followed_tags objs o)) r).

(** [git fetch --tags --quiet 2>/dev/null || true] *)
Definition git_fetch_tags (e : env) : M unit :=
  emit GitFetchTags >>>
  when_ (online e)
    (modify (fun w => set_local (fetched true (objects w) (remote w)) w)).

(** [git fetch --quiet] *)
Definition git_fetch (e : env) : M unit :=
  emit GitFetch >>>
  if online e
  then modify (fun w => set_local (fetched false (objects w) (remote w)) w)
  else exit 128.

(** [git ls-remote --tags origin "refs/tags/$TAG" 2>/dev/null | grep -q "$TAG"] *)
Definition remote_tag_listed (e : env) (tag : string) (w : world) : bool :=
  online e && bool_decide (is_Some (o_tags (remote w) !! tag)).

(** [git checkout -- paths]: every path must be in the index, and then
    each file is written from it. *)
Definition git_checkout (paths : list string) : M unit :=
  emit (GitCheckout paths) >>>
  let* w := get in
  if forallb (fun p => bool_decide (is_Some (index (local w) !! p))) paths
  then modify (set_local (fun r =>
         set_worktree
           (foldr (fun p t => match index r !! p with
                              | Some c => <[p := c]> t
                              | None => t
                              end) (worktree r) paths) r))
  else exit 1.

(** [git add paths]: every path must be a file or be tracked; the index
    then takes each path as the working tree has it. *)
Definition git_add (paths : list string) : M unit :=
  emit (GitAdd paths) >>>
  let* w := get in
  if forallb (fun p => bool_decide (is_Some (worktree (local w) !! p)) ||
                       bool_decide (is_Some (index (local w) !! p))) paths
  then modify (set_local (fun r =>
         set_index
           (foldr (fun p t => match worktree r !! p with
                              | Some c => <[p := c]> t
                              | None => delete p t
                              end) (index r) paths) r))
  else exit 128.

(** The cleanup of a message that was not edited ([--cleanup=whitespace],
    [strbuf_stripspace] in git's strbuf.c): blanks at the end of a line
    go, empty lines at the start and at the end go, a run of empty lines
    becomes one, and every line that stays ends in a newline. *)
Definition CR : ascii := "013"%char.

Definition git_space (c : ascii) : bool :=
  existsb (Ascii.eqb c) [SPACE; TAB; LF; CR].

Fixpoint drop_spaces (s : string) : string :=
  match s with
  | String c s' => if git_space c then drop_spaces s' else s
  | EmptyString => EmptyString
  end.

Definition rtrim_git (l : string) : string :=
  string_rev (drop_spaces (string_rev l)).

Fixpoint stripspace_lines (started empties : bool) (ls : list string) : string :=
  match ls with
  | [] => EmptyString
  | l :: rest =>
      if String.eqb l EmptyString then stripspace_lines started true rest
      else (if started && empties then str LF else EmptyString) +:+
           l +:+ str LF +:+ stripspace_lines true false rest
  end.

Definition git_stripspace (msg : string) : string :=
  stripspace_lines false false (map rtrim_git (lines msg)).

(** [git commit -m msg]: refuses an index equal to the tree of HEAD and a
    message that is empty once cleaned up; the commit holds the cleaned
    message. *)
Definition git_commit (msg : string) : M unit :=
  emit (GitCommit msg) >>>
  let* w := get in
  let r := local w in
  if index_dirty (objects w) r &&
     negb (String.eqb (git_stripspace msg) EmptyString)
  then
    let c := length (objects w) in
    let cm := Commit (match head_commit r with Some h => [h] | None => [] end)
                     (index r) (git_stripspace msg) in
    let r' := match HEAD r with
              | OnBranch b =>
                  Repo (worktree r) (index r) (HEAD r) (<[b := c]> (heads r))
                       (tags r) (remotes r)
              | Detached _ =>
                  Repo (worktree r) (index r) (Detached c) (heads r)
                       (tags r) (remotes r)
              end in
    modify (fun w => World r' (remote w) (objects w ++ [cm]) (stdin w) (trace w))
  else exit 1.

(** [git tag TAG]: the name must be well formed and new. *)
Definition git_tag (tag : string) : M unit :=
  emit (GitTag tag) >>>
  let* w := get in
  if negb (valid_refname tag) then exit 128 else
  match tags (local w) !! tag, head_commit (local w) with
  | None, Some c => modify (set_local (fun r => set_tags (<[tag := c]> (tags r)) r))
  | _, _ => exit 128
  end.

(** [git push]: the current branch goes to its namesake on [origin], which
    it is taken to track; [origin] accepts a fast-forward only. *)
Definition git_push (e : env) : M unit :=
  emit GitPush >>>
  let* w := get in
  match HEAD (local w), head_commit (local w) with
  | OnBranch b, Some c =>
      if online e &&
         match o_heads (remote w) !! b with
         | Some old => ancestor (objects w) old c
         | None => true
         end
      then modify (fun w =>
             set_remote (fun o => Origin (<[b := c]> (o_heads o)) (o_tags o))
               (set_local (fun r => set_remotes (<[b := c]> (remotes r)) r) w))
      else exit 1
  | _, _ => exit 128
  end.

(** [git push origin TAG] *)
Definition git_push_tag (e : env) (tag : string) : M unit :=
  emit (GitPushTag tag) >>>
  let* w := get in
  match tags (local w) !! tag with
  | Some c =>
      if online e &&
         match o_tags (remote w) !! tag with
         | Some old => Nat.eqb old c
         | None => true
         end
      then modify (set_remote (fun o => Origin (o_heads o) (<[tag := c]> (o_tags o))))
      else exit 1
  | None => exit 1
  end.

(** ** The release command (lines 379-506) *)

Definition lift {A} (o : outcome A) : M A := fun w => (o, w).

(** Lines 379-393. The assignment [CURRENT_VERSION=$(current_version)]
    takes the status of the pipeline, so under [set -e] a manifest without
    a version line ends the script before the emptiness check. *)
Definition read_and_bump (kind : bump_type) : M (string * string) :=
  let* w := get in
  let* cur := lift (current_version (worktree (local w) !! CARGO_TOML)) in
  if String.eqb cur EmptyString then die
  else let* new := lift (bump kind cur) in ret (cur, new).

Definition is_yes (s : string) : bool := String.eqb s "y" || String.eqb s "Y".
Definition is_no (s : string) : bool := String.eqb s "n" || String.eqb s "N".

(** Lines 405-444: the safety checks. *)
Definition preflight (e : env) (TAG : string) : M unit :=
  let* w := get in
  when_ (worktree_dirty [CARGO_TOML; CARGO_LOCK] (local w)) die >>>
  when_ (index_dirty (objects w) (local w)) die >>>
  when_ (negb (all_chars pattern_literal TAG)) beyond >>>
  when_ (bool_decide (is_Some (tags (local w) !! TAG))) die >>>
  git_fetch_tags e >>>
  let* w := get in
  when_ (remote_tag_listed e TAG w) die >>>
  (if String.eqb (current_branch (local w)) "main" then ret tt
   else let* CONFIRM := read_line in when_ (negb (is_yes CONFIRM)) (exit 1)) >>>
  git_fetch e >>>
  let* w := get in
  match head_commit (local w) with
  | None => exit 128
  | Some LOCAL =>
      match remotes (local w) !! "main" with
      | None => die
      | Some REMOTE =>
          when_ (negb (Nat.eqb LOCAL REMOTE) &&
                 negb (ancestor (objects w) LOCAL REMOTE)) die
      end
  end.

(** Line 449. *)
Definition update_version (cur new : string) : M unit :=
  when_ (negb (all_chars sed_ordinary cur && all_chars sed_ordinary new)) beyond >>>
  emit (SedVersion cur new) >>>
  let* w := get in
  match worktree (local w) !! CARGO_TOML with
  | Some text =>
      modify (set_local (fun r =>
        set_worktree (<[CARGO_TOML := sed_version cur new text]> (worktree r)) r))
  | None => exit 4
  end.

(** Lines 452-458. *)
Definition build_check (e : env) : M unit :=
  emit CargoCheck >>>
  let* w := get in
  let result := cargo_check e (worktree (local w)) in
  match snd result with
  | Some lock =>
      modify (set_local (fun r =>
        set_worktree (<[CARGO_LOCK := lock]> (worktree r)) r))
  | None => ret tt
  end >>>
  if fst result then ret tt else exit 101.

(** Lines 461-468: the commits since the last tag are printed through
    [head -10], or the last ten commits are, with [git log -10], when no
    tag is reachable from HEAD. Up to ten lines [head] reads to the end.
    With more, [git log] may be killed while it writes the rest, which
    ends the script with status 141 after the version has been rewritten;
    whether it is depends on the length of the lines and on timing, and
    the model stops. [git describe] picks one of the tags that HEAD
    descends from; the bound is asked of each of them. *)
Definition commits_since (objs : list commit) (tag head : nat) : nat :=
  length (List.filter (fun c => ancestor objs c head && negb (ancestor objs c tag))
                      (seq 0 (length objs))).

Definition recent_commits : M unit :=
  let* w := get in
  match head_commit (local w) with
  | None => exit 128
  | Some h =>
      if bool_decide
           (map_Forall (fun _ t => ancestor (objects w) t h = true ->
                                   (commits_since (objects w) t h <= 10)%nat)
                       (tags (local w)))
      then ret tt
      else beyond
  end.

(** Lines 471-478: the default message and the prefix check. *)
Definition normalize_message (TAG USER_MSG : string) : string :=
  let DEFAULT_MSG := TAG +:+ ": " in
  let COMMIT_MSG :=
    if String.eqb USER_MSG EmptyString then DEFAULT_MSG else USER_MSG in
  if starts_v_digit COMMIT_MSG then COMMIT_MSG
  else TAG +:+ ": " +:+ COMMIT_MSG.

Definition commit_message (TAG : string) : M string :=
  let* USER_MSG := read_line in ret (normalize_message TAG USER_MSG).

(** Lines 488-489. *)
Definition final_confirmation : M unit :=
  let* CONFIRM := read_line in
  if is_no CONFIRM
  then git_checkout [CARGO_TOML; CARGO_LOCK] >>> exit 1
  else ret tt.

(** Lines 494-500. *)
Definition transaction (e : env) (TAG msg : string) : M unit :=
  git_add [CARGO_TOML; CARGO_LOCK] >>>
  git_commit msg >>>
  git_tag TAG >>>
  git_push e >>>
  git_push_tag e TAG.

Definition after_preflight (e : env) (cur new : string) : M unit :=
  let TAG := tag_of new in
  update_version cur new >>>
  build_check e >>>
  recent_commits >>>
  let* msg := commit_message TAG in
  final_confirmation >>>
  transaction e TAG msg.

Definition through_preflight (e : env) (kind : bump_type) : M (string * string) :=
  let* v := read_and_bump kind in
  preflight e (tag_of (snd v)) >>> ret v.

(** The release command up to "Release $TAG pushed successfully". *)
Definition release (e : env) (kind : bump_type) : M unit :=
  let* v := through_preflight e kind in
  after_preflight e (fst v) (snd v).

(** ** cmd_monitor: finding the CI run (lines 127-144) *)

Record ci_run : Type := CiRun { databaseId : string; displayTitle : string }.

(** [gh run list ... -q ".[] | select(.displayTitle | contains(TAG)) |
    .databaseId" | head -1 || echo ""]: the id of the first listed run
    whose title contains the tag; nothing when [gh] fails. *)
Definition query_run_id (tag : string) (listing : option (list ci_run)) : string :=
  match listing with
  | Some runs =>
      match List.filter (fun r => contains tag (displayTitle r)) runs with
      | r :: _ => databaseId r
      | [] => EmptyString
      end
  | None => EmptyString
  end.

Definition no_run (run_id : string) : bool :=
  String.eqb run_id EmptyString || String.eqb run_id "null".

Definition max_attempts : nat := 30.

Inductive discovery : Type :=
  | RunFound (run_id : string)
  | TimedOut
  | Unfinished.

(** The loop, unrolled at most [fuel] times; [listings n] is what the
    [n]-th call of [gh run list] returns. The result comes with the calls
    and sleeps made. *)
Fixpoint discover (fuel : nat) (tag : string)
    (listings : nat -> option (list ci_run)) (attempts : nat)
    : discovery * list event :=
  match fuel with
  | O => (Unfinished, [])
  | S fuel' =>
      let run_id := query_run_id tag (listings attempts) in
      if no_run run_id then
        let attempts := attempts + 1 in
        if Nat.leb max_attempts attempts then (TimedOut, [GhRunList])
        else
          let '(r, evs) := discover fuel' tag listings attempts in
          (r, GhRunList :: Sleep 10 :: evs)
      else (RunFound run_id, [GhRunList])
  end.

(** ** cmd_check: verifying a release (lines 219-319) *)

Definition EXPECTED_ARTIFACTS : list string :=
  [ "shelldeck-linux-x86_64.tar.gz";
    "shelldeck-macos-aarch64.zip";
    "shelldeck-windows-x86_64.zip";
    "ShellDeck-x86_64.AppImage";
    "SHA256SUMS.txt" ].

(** [grep -qF "$pat"] on a text: some line of the text contains one of
    the newline-separated fixed strings of the pattern. *)
Definition grep_line (pat l : string) : bool :=
  existsb (fun p => contains p l) (lines pat).

Definition grep_qF (pat text : string) : bool :=
  existsb (grep_line pat) (lines text).

(** A name that [grep] takes for a pattern and not for an option, in
    bytes that are text in every locale. *)
Definition name_plain (x : string) : bool :=
  all_chars text_byte x && negb (starts_with "-" x).

(** A text that [echo] takes for its options [-n], [-e], [-E]. *)
Definition echo_option (s : string) : bool :=
  match s with
  | String "-" (String c r) =>
      all_chars (fun c => existsb (Ascii.eqb c) ["n"; "e"; "E"]%char) (String c r)
  | _ => false
  end.

(** The condition [echo "$text" | grep -qF "$pat"] of line 250, under
    [pipefail]. [grep -q] leaves at the first line it selects; when
    [echo] is killed over that, the condition fails although the line
    was found. Nothing is said where the outcome is a matter of timing. *)
Definition echo_grep_qF (pat text : string) : option bool :=
  if negb (name_plain pat) then None
  else match after_first (grep_line pat) (lines text) with
       | None => Some false
       | Some after =>
           match writer_fate (bytes text + 1) after with
           | Drained => Some true
           | Broken => Some false
           | Timing => None
           end
       end.

Record check_env : Type := CheckEnv {
  gh_ready : bool;
  latest_tag : string;
  REPO : string;
  (** [gh release view] for a tag: absent, or the draft flag and the
      asset names, one per line. *)
  release_view : string -> option (bool * string);
  (** [curl -sI -o /dev/null -w '%{http_code}' -L url || echo "000"] *)
  http_code : string -> string
}.

Record report : Type := Report {
  draft : bool;
  found : nat;
  missing : nat;
  missing_names : list string;
  extra : list string;
  probes : list (string * string);
  all_ok : bool
}.

(** Lines 249-258. *)
Fixpoint scan_expected (expected : list string) (assets : string)
    (acc : nat * nat * list string * bool)
    : option (nat * nat * list string * bool) :=
  match expected with
  | [] => Some acc
  | x :: rest =>
      let '(found, missing, names, all_ok) := acc in
      match echo_grep_qF x assets with
      | Some true =>
          scan_expected rest assets (found + 1, missing, names, all_ok)
      | Some false =>
          scan_expected rest assets (found, missing + 1, (names ++ [x])%list, false)
      | None => None
      end
  end.

(** Lines 262-273: the asset lines, as [read] trims them, that equal no
    expected name. *)
Definition extra_artifacts (expected : list string) (assets : string) : list string :=
  List.filter (fun a => negb (existsb (String.eqb a) expected) &&
                        negb (String.eqb a EmptyString))
              (map trim (lines assets)).

Definition download_url (repo tag file : string) : string :=
  "https://github.com/" +:+ repo +:+ "/releases/download/" +:+ tag +:+ "/" +:+ file.

(** [cmd_check] for a list of expected names. The model stops
    ([Beyond]) when [echo] would take the asset list for an option, and
    when a test of line 250 is not decided ([echo_grep_qF]). *)
Definition cmd_check_with (expected : list string) (c : check_env) (arg : string)
    : outcome report :=
  if negb (gh_ready c) then Exit 1 else
  let tag := if String.eqb arg EmptyString then latest_tag c else arg in
  if String.eqb tag EmptyString then Exit 1 else
  match release_view c tag with
  | None => Exit 1
  | Some (is_draft, assets) =>
      if echo_option assets then Beyond else
      match scan_expected expected assets (0, 0, [], true) with
      | None => Beyond
      | Some (found, missing, names, all_ok) =>
          let linux_url :=
            download_url (REPO c) tag "shelldeck-linux-x86_64.tar.gz" in
          let linux_code := http_code c linux_url in
          let all_ok := if String.eqb linux_code "200" then all_ok else false in
          let macos_url :=
            download_url (REPO c) tag "shelldeck-macos-aarch64.zip" in
          let macos_code := http_code c macos_url in
          let all_ok := if String.eqb macos_code "200" then all_ok else false in
          Done (Report is_draft found missing names
                       (extra_artifacts expected assets)
                       [(linux_url, linux_code); (macos_url, macos_code)] all_ok)
      end
  end.

Definition cmd_check : check_env -> string -> outcome report :=
  cmd_check_with EXPECTED_ARTIFACTS.

(** ** Notions used in the statements *)

Local Open Scope Z_scope.

(** The manifest text of the version with components [x], [y], [z]:
    decimal numerals without leading zeros, as semantic versioning writes
    them. *)
Definition semver (x y z : Z) : string :=
  dotted (show_nat x) (show_nat y) (show_nat z).

(** [numeral n s]: [s] is a decimal numeral of [n] as the shell reads it:
    only digits, no leading zero on a positive number, and the literal
    reader gives [n] back. *)
Definition numeral (n : Z) (s : string) : Prop :=
  all_chars is_digit s = true /\
  strlong_loop 10 0 s = Some n /\
  exists c r, s = String c r /\
    (0 < n -> Ascii.eqb c "0" = false) /\ (n = 0 -> r = EmptyString).

Local Close Scope Z_scope.

(** A dotted triple of numbers, in the words of the specification: three
    non-empty runs of digits separated by dots. *)
Definition digits (s : string) : bool :=
  negb (String.eqb s EmptyString) && all_chars is_digit s.

Definition dotted_triple (s : string) : bool :=
  match split_on DOT s with
  | [a; b; c] => digits a && digits b && digits c
  | _ => false
  end.

(** A run keeps [I] when every state it can end in is related to the one
    it started from. *)
Definition preserves {A} (I : world -> world -> Prop) (m : M A) : Prop :=
  forall w r w', m w = (r, w') -> I w w'.

(** The checkout (working tree, index, HEAD and branch heads), [origin]
    and the object store are as before. *)
Definition same_checkout (w w' : world) : Prop :=
  worktree (local w') = worktree (local w) /\
  index (local w') = index (local w) /\
  HEAD (local w') = HEAD (local w) /\
  heads (local w') = heads (local w) /\
  remote w' = remote w /\
  objects w' = objects w.




(** [k] rounds of a failed query followed by the sleep. *)
Fixpoint waits (k : nat) : list event :=
  match k with
  | O => []
  | S k' => GhRunList :: Sleep 10 :: waits k'
  end.

(** The missing artifacts in the words of the specification: the expected
    names that are not among the asset names. *)
Definition spec_missing (expected : list string) (assets : string) : list string :=
  List.filter (fun x => negb (existsb (String.eqb x) (lines assets))) expected.

(** What the scan of [cmd_check] decides for one expected name. *)
Definition found_in (assets x : string) : bool :=
  bool_decide (echo_grep_qF x assets = Some true).
Definition missing_in (assets x : string) : bool := negb (found_in assets x).


(** ** Sample inputs *)

Definition nl : string := str LF.

Definition manifest_with (version_line : string) : string :=
  "[package]" +:+ nl +:+ "name = " +:+ quoted "shelldeck" +:+ nl +:+
  version_line +:+ nl.

Definition manifest_0_1_1 : string := manifest_with ("version = " +:+ quoted "0.1.1").

Definition sample_tree (manifest : string) : gmap string string :=
  {[ CARGO_TOML := manifest; CARGO_LOCK := "lock"; "src/main.rs" := "fn main() {}" ]}.

(** A clean clone on [main], level with [origin], at a first commit that
    holds [manifest]; [edited] is the manifest of the working tree. *)
Definition sample_world (manifest edited : string) (otags : gmap string nat)
    (input : list string) : world :=
  World (Repo (<[CARGO_TOML := edited]> (sample_tree manifest))
              (sample_tree manifest) (OnBranch "main")
              {[ "main" := 0%nat ]} ∅ {[ "main" := 0%nat ]})
        (Origin {[ "main" := 0%nat ]} otags)
        [Commit [] (sample_tree manifest) "init"] input [].

Definition sample_env : env := Env true (fun _ => (true, None)).

(** The manifest with one more line that was never committed. *)
Definition manifest_edited : string :=
  manifest_0_1_1 +:+ "[profile.release]" +:+ nl.


(** A dependency table pinned to the same version as the package. *)
Definition manifest_two_tables : string :=
  manifest_0_1_1 +:+ nl +:+ "[dependencies.shelldeck-core]" +:+ nl +:+
  "version = " +:+ quoted "0.1.1" +:+ nl.

Definition sample_check (assets : string) : check_env :=
  CheckEnv true EmptyString "benfavre/shelldeck"
           (fun _ => Some (false, assets)) (fun _ => "200").

(** What the verification of [assets_signed] reports for v0.1.2 when both
    downloads answer 200. *)
Definition report_signed : report :=
  Report false 5 0 [] ["SHA256SUMS.txt.asc"]
    [ (download_url "benfavre/shelldeck" "v0.1.2" "shelldeck-linux-x86_64.tar.gz",
       "200");
      (download_url "benfavre/shelldeck" "v0.1.2" "shelldeck-macos-aarch64.zip",
       "200") ]
    true.

(** Every expected artifact but the checksum file, and a signature of it. *)
Definition assets_signed : string :=
  "shelldeck-linux-x86_64.tar.gz" +:+ nl +:+
  "shelldeck-macos-aarch64.zip" +:+ nl +:+
  "shelldeck-windows-x86_64.zip" +:+ nl +:+
  "ShellDeck-x86_64.AppImage" +:+ nl +:+
  "SHA256SUMS.txt.asc".


(** The counts, the missing names and the verdict of a verification. *)
Definition verdict_of (r : outcome report) : option (nat * nat * list string * bool) :=
  match r with
  | Done rep => Some (found rep, missing rep, missing_names rep, all_ok rep)
  | _ => None
  end.

(** * The rest of the script *)

(** ** Elapsed time (lines 68-77)

    The argument is a decimal numeral, here the number it writes. The
    comparisons and the divisions read it as the shell's arithmetic does,
    in 64 bits, and the divisions truncate; the first branch prints the
    argument as it came. *)
Definition fmt_duration (secs : Z) : string :=
  let v := wrap64 secs in
  if (v <? 60)%Z then show_Z secs +:+ "s"
  else if (v <? 3600)%Z
       then show_Z (Z.quot v 60) +:+ "m " +:+ show_Z (Z.rem v 60) +:+ "s"
       else show_Z (Z.quot v 3600) +:+ "h " +:+
            show_Z (Z.quot (Z.rem v 3600) 60) +:+ "m".

(** ** The arguments (lines 323-366) *)

Inductive command : Type := NoCommand | Status | Monitor | Check | Release.

Record args : Type := Args {
  NO_MONITOR : bool;
  COMMAND : command;
  CMD_ARG : string;
  BUMP_TYPE : option bump_type
}.

Definition bump_word (a : string) : option bump_type :=
  if String.eqb a "patch" then Some patch
  else if String.eqb a "minor" then Some minor
  else if String.eqb a "major" then Some major
  else None.

(** The [while]/[case] loop. After [--monitor] and [--check] the next
    word, when there is one and it is not empty, is taken as the tag and
    shifted away; an empty word stays and meets the [case] itself. *)
Fixpoint parse_loop (st : args) (argv : list string) : outcome args :=
  match argv with
  | [] => Done st
  | a :: rest =>
      if String.eqb a "--status"
      then parse_loop (Args (NO_MONITOR st) Status (CMD_ARG st) (BUMP_TYPE st)) rest
      else if String.eqb a "--monitor" || String.eqb a "--check"
      then
        let cmd := if String.eqb a "--monitor" then Monitor else Check in
        match rest with
        | [] => Done (Args (NO_MONITOR st) cmd EmptyString (BUMP_TYPE st))
        | t :: rest' =>
            if String.eqb t EmptyString
            then parse_loop (Args (NO_MONITOR st) cmd EmptyString (BUMP_TYPE st)) rest
            else parse_loop (Args (NO_MONITOR st) cmd t (BUMP_TYPE st)) rest'
        end
      else if String.eqb a "--no-monitor"
      then parse_loop (Args true (COMMAND st) (CMD_ARG st) (BUMP_TYPE st)) rest
      else if String.eqb a "--help" || String.eqb a "-h"
      then Exit 0
      else match bump_word a with
           | Some kind =>
               parse_loop (Args (NO_MONITOR st) Release (CMD_ARG st) (Some kind)) rest
           | None => Exit 1
           end
  end.

(** Lines 323-366: the loop from the initial values, then the defaults. *)
Definition parse_args (argv : list string) : outcome args :=
  match parse_loop (Args false NoCommand EmptyString None) argv with
  | Done st =>
      let cmd := match COMMAND st with NoCommand => Release | c => c end in
      Done (Args (NO_MONITOR st) cmd (CMD_ARG st)
              (match cmd, BUMP_TYPE st with
               | Release, None => Some patch
               | _, b => b
               end))
  | Exit code => Exit code
  | Beyond => Beyond
  end.

Definition bump_name (kind : bump_type) : string :=
  match kind with patch => "patch" | minor => "minor" | major => "major" end.

(** The words of the usage text that select a command or an option. *)
Definition option_word (a : string) : bool :=
  existsb (String.eqb a)
    ["--status"; "--monitor"; "--check"; "--no-monitor"; "patch"; "minor"; "major"].

(** ** cmd_monitor: watching the run (lines 150-214) *)

(** [read -r A B C] with one separator character that is not a blank, as
    in [IFS='|']. *)
Definition read_ifs (d : ascii) (s : string) : string * string * string :=
  match cut d s with
  | None => (s, EmptyString, EmptyString)
  | Some (a, r1) =>
      match cut d r1 with
      | None => (a, r1, EmptyString)
      | Some (b, r2) =>
          (a, b, match cut d r2 with
                 | Some (w, EmptyString) => w
                 | _ => r2
                 end)
      end
  end.

Definition BAR : ascii := "|"%char.

Inductive icon : Type :=
  | IconSuccess | IconFailure | IconCancelled | IconSkipped
  | IconInProgress | IconQueued | IconUnknown.

(** Lines 177-189. *)
Definition job_icon (jstatus jconclusion : string) : icon :=
  if String.eqb jconclusion "success" then IconSuccess
  else if String.eqb jconclusion "failure" then IconFailure
  else if String.eqb jconclusion "cancelled" then IconCancelled
  else if String.eqb jconclusion "skipped" then IconSkipped
  else if String.eqb jstatus "in_progress" then IconInProgress
  else if String.eqb jstatus "queued" then IconQueued
  else IconUnknown.

Record job : Type := Job {
  job_name : string;
  job_status : string;
  job_conclusion : string
}.

Record snapshot : Type := Snapshot {
  run_status : string;
  run_conclusion : string;
  run_jobs : list job
}.

(** One line of [jq -r '.jobs[] | "\(.name)|\(.status)|\(.conclusion)"']. *)
Definition job_line (j : job) : string :=
  job_name j +:+ str BAR +:+ job_status j +:+ str BAR +:+ job_conclusion j.

Definition jobs_text (snap : snapshot) : string :=
  unlines (map job_line (run_jobs snap)).

Inductive poll_event : Type :=
  | RunView
  | Header (status elapsed : string)
  | JobRow (i : icon) (name jstatus jconclusion : string)
  | Wait (seconds : nat).

(** Lines 173-192: one row for each line of the text, split again at the
    bars. *)
Definition job_rows (text : string) : list poll_event :=
  if String.eqb text EmptyString then []
  else map (fun l => let '(name, jstatus, jconclusion) := read_ifs BAR l in
                     JobRow (job_icon jstatus jconclusion) name jstatus jconclusion)
           (lines text).

Inductive poll_result : Type :=
  | CiSucceeded
  | CiFailed (conclusion : string)
  | ViewFailed
  | Polling.

(** The [while true] loop, unrolled at most [fuel] times. [views n] is
    what the [n]-th [gh run view] returns ([None] when it fails, which
    ends the script under [set -e]) and [clock n] the seconds elapsed at
    that moment. *)
Fixpoint poll (fuel : nat) (views : nat -> option snapshot) (clock : nat -> Z)
    (n : nat) (prev_status : string) : poll_result * list poll_event :=
  match fuel with
  | O => (Polling, [])
  | S fuel' =>
      match views n with
      | None => (ViewFailed, [RunView])
      | Some snap =>
          let status := run_status snap in
          let header :=
            if String.eqb status prev_status then []
            else [Header status (fmt_duration (clock n))] in
          let out := (RunView :: header ++ job_rows (jobs_text snap))%list in
          if String.eqb status "completed"
          then if String.eqb (run_conclusion snap) "success"
               then (CiSucceeded, out)
               else (CiFailed (run_conclusion snap), out)
          else
            let '(r, evs) := poll fuel' views clock (n + 1) status in
            (r, (out ++ Wait 15 :: evs)%list)
      end
  end.

Record monitor_env : Type := MonitorEnv {
  checks : check_env;
  listings : nat -> option (list ci_run);
  views : string -> nat -> option snapshot;
  clock : nat -> Z
}.

(** How [cmd_monitor] ends: with a status, not within the rounds that
    were allowed, or where the model of [cmd_check] stops. *)
Inductive monitor_result : Type :=
  | MonitorExit (code : nat)
  | MonitorUnfinished
  | MonitorBeyond.

(** Lines 118-215. The script runs under [set -e] wherever it calls
    [cmd_monitor], so a failing [cmd_check] ends it before [return 0]. *)
Definition cmd_monitor (fuel : nat) (m : monitor_env) (arg : string)
    : monitor_result :=
  if negb (gh_ready (checks m)) then MonitorExit 1 else
  let tag := if String.eqb arg EmptyString then latest_tag (checks m) else arg in
  if String.eqb tag EmptyString then MonitorExit 1 else
  match fst (discover max_attempts tag (listings m) 0) with
  | RunFound run_id =>
      match fst (poll fuel (views m run_id) (clock m) 0 EmptyString) with
      | CiSucceeded =>
          match cmd_check (checks m) tag with
          | Done rep => MonitorExit (if all_ok rep then 0 else 1)
          | Exit code => MonitorExit code
          | Beyond => MonitorBeyond
          end
      | CiFailed _ => MonitorExit 1
      | ViewFailed => MonitorExit 1
      | Polling => MonitorUnfinished
      end
  | TimedOut => MonitorExit 1
  | Unfinished => MonitorUnfinished
  end.

(** ** Notions used in the further statements *)

Definition headers (evs : list poll_event) : list string :=
  flat_map (fun ev => match ev with Header s _ => [s] | _ => [] end) evs.

Definition waited (evs : list poll_event) : list nat :=
  flat_map (fun ev => match ev with Wait n => [n] | _ => [] end) evs.

Definition views_made (evs : list poll_event) : nat :=
  length (List.filter (fun ev => match ev with RunView => true | _ => false end) evs).

(** No two neighbours of the list are equal. *)
Fixpoint no_repeat (prev : string) (l : list string) : Prop :=
  match l with
  | [] => True
  | x :: l' => x <> prev /\ no_repeat x l'
  end.

Definition no_quote (s : string) : bool :=
  all_chars (fun c => negb (Ascii.eqb c DQUOTE)) s.
Definition no_newline (s : string) : bool :=
  all_chars (fun c => negb (Ascii.eqb c LF)) s.
Definition no_bar (s : string) : bool :=
  all_chars (fun c => negb (Ascii.eqb c BAR)) s.



(** A manifest that [current_version] reads whatever the timing: text
    in ASCII whose version lines fit one block of a pipe. *)
Definition read_at_once (text : string) : Prop :=
  all_chars text_byte text = true /\
  (text_bytes (List.filter (starts_with "version") (lines text)) <= PIPE_BLOCK)%Z.

(** The row of a job, and the jobs whose fields hold neither a bar nor a
    newline. *)
Definition row_of (j : job) : poll_event :=
  JobRow (job_icon (job_status j) (job_conclusion j))
         (job_name j) (job_status j) (job_conclusion j).

Definition plain_field (s : string) : bool := no_bar s && no_newline s.

Definition job_clean (j : job) : bool :=
  plain_field (job_name j) && plain_field (job_status j) &&
  plain_field (job_conclusion j).

(** * Properties *)

(** ** Text lemmas *)

Lemma all_chars_app p s t :
  all_chars p (s +:+ t) = all_chars p s && all_chars p t.
Proof.
  induction s as [|c s IH]; simpl; [done|].
  by rewrite IH, andb_assoc.
Qed.

Lemma all_chars_impl (p q : ascii -> bool) s :
  (forall c, p c = true -> q c = true) ->
  all_chars p s = true -> all_chars q s = true.
Proof.
  intros Hpq. induction s as [|c s IH]; simpl; [done|].
  rewrite !andb_true_iff. intros [Hc Hs]. auto.
Qed.

Lemma cut_app d s r :
  all_chars (fun c => negb (Ascii.eqb c d)) s = true ->
  cut d (s +:+ String d r) = Some (s, r).
Proof.
  induction s as [|c s IH]; simpl.
  - by rewrite Ascii.eqb_refl.
  - rewrite andb_true_iff, negb_true_iff. intros [Hc Hs].
    by rewrite Hc, (IH Hs).
Qed.

Lemma cut_none d s :
  all_chars (fun c => negb (Ascii.eqb c d)) s = true -> cut d s = None.
Proof.
  induction s as [|c s IH]; simpl; [done|].
  rewrite andb_true_iff, negb_true_iff. intros [Hc Hs].
  by rewrite Hc, (IH Hs).
Qed.

Lemma digit_not_dot c : is_digit c = true -> negb (Ascii.eqb c DOT) = true.
Proof.
  intros Hd. rewrite negb_true_iff. apply Ascii.eqb_neq. by intros ->.
Qed.

Lemma split_on_nonempty d s : exists p ps, split_on d s = p :: ps.
Proof.
  destruct s as [|c s]; simpl; [by eexists _, _|].
  destruct (Ascii.eqb c d); [by eexists _, _|].
  destruct (split_on d s); by eexists _, _.
Qed.

Lemma unlines_lines s : unlines (lines s) = s.
Proof.
  unfold unlines, lines. induction s as [|c s IH]; simpl; [done|].
  destruct (Ascii.eqb_spec c LF) as [->|Hne].
  - destruct (split_on_nonempty LF s) as (p & ps & Hs).
    rewrite Hs in *. simpl. by rewrite <- IH.
  - destruct (split_on_nonempty LF s) as (p & ps & Hs).
    rewrite Hs in *. rewrite <- IH. by destruct ps.
Qed.

Lemma starts_with_refl s : starts_with s s = true.
Proof. induction s as [|c s IH]; simpl; [done|]. by rewrite Ascii.eqb_refl. Qed.

Lemma starts_with_app_l p r s :
  starts_with (p +:+ r) s = true -> starts_with p s = true.
Proof.
  revert s. induction p as [|c p IH]; intros s; simpl; [done|].
  destruct s as [|b s]; [done|]. rewrite !andb_true_iff.
  intros [? ?]. auto.
Qed.

Lemma contains_refl s : contains s s = true.
Proof. destruct s; cbn [contains]; by rewrite starts_with_refl. Qed.

Lemma contains_app_l p r s : contains (p +:+ r) s = true -> contains p s = true.
Proof.
  induction s as [|c s IH]; cbn [contains].
  - rewrite !orb_false_r. apply starts_with_app_l.
  - rewrite !orb_true_iff. intros [H|H]; [left; by eapply starts_with_app_l|auto].
Qed.

(** The first piece of a text is where the text starts, and it is free
    of the separator. *)
Lemma split_on_head d s :
  exists p ps r, split_on d s = p :: ps /\ s = p +:+ r /\
    all_chars (fun c => negb (Ascii.eqb c d)) p = true.
Proof.
  induction s as [|c s (p & ps & r & Hs & Hr & Hp)]; simpl.
  - by exists EmptyString, [], EmptyString.
  - destruct (Ascii.eqb c d) eqn:E.
    + by exists EmptyString, (split_on d s), (String c s).
    + rewrite Hs. exists (String c p), ps, r. split; [done|].
      split; [by rewrite Hr at 1|]. simpl. by rewrite E.
Qed.



Lemma split_on_app d s t :
  split_on d (s +:+ String d t) = (split_on d s ++ split_on d t)%list.
Proof.
  induction s as [|c s IH]; simpl.
  - by rewrite Ascii.eqb_refl.
  - destruct (Ascii.eqb c d); [by rewrite IH|].
    rewrite IH. destruct (split_on_nonempty d s) as (p & ps & ->). done.
Qed.

Lemma lines_app s t : lines (s +:+ nl +:+ t) = (lines s ++ lines t)%list.
Proof. apply split_on_app. Qed.

Lemma append_cons x (a b : string) : String x a +:+ b = String x (a +:+ b).
Proof. reflexivity. Qed.

Lemma append_assoc (a b c : string) : (a +:+ b) +:+ c = a +:+ (b +:+ c).
Proof.
  induction a as [|x a IH]; [done|]. rewrite !append_cons. by f_equal.
Qed.


Lemma starts_with_spec p s :
  starts_with p s = true <-> exists r, s = p +:+ r.
Proof.
  revert s. induction p as [|a p IH]; intros s; simpl.
  - split; [by exists s|done].
  - destruct s as [|b s].
    + split; [done|]. by intros [r Hr].
    + rewrite andb_true_iff, Ascii.eqb_eq, IH. split.
      * intros [-> [r ->]]. by exists r.
      * intros [r [= -> ->]]. split; [done|by exists r].
Qed.

Lemma contains_spec p s :
  contains p s = true <-> exists a b, s = a +:+ p +:+ b.
Proof.
  induction s as [|c s IH]; cbn [contains].
  - rewrite orb_false_r, starts_with_spec. split.
    + intros [r Hr]. by exists EmptyString, r.
    + intros (a & b & Hab). destruct a; [by exists b|done].
  - rewrite orb_true_iff, starts_with_spec, IH. split.
    + intros [[r Hr]|(a & b & ->)]; [by exists EmptyString, r|].
      by exists (String c a), b.
    + intros (a & b & Hab). destruct a as [|x a]; [left; by exists b|].
      right. injection Hab as -> ->. by exists a, b.
Qed.

Lemma contains_trans a b c :
  contains a b = true -> contains b c = true -> contains a c = true.
Proof.
  rewrite !contains_spec. intros (x & y & ->) (u & v & ->).
  exists (u +:+ x), (y +:+ v). by rewrite !append_assoc.
Qed.

Lemma list_ascii_of_string_app (a b : string) :
  String.list_ascii_of_string (a +:+ b) =
  (String.list_ascii_of_string a ++ String.list_ascii_of_string b)%list.
Proof. induction a as [|x a IH]; [done|]. rewrite append_cons. simpl. by f_equal. Qed.

Lemma string_of_list_ascii_app (l1 l2 : list ascii) :
  String.string_of_list_ascii (l1 ++ l2) =
  String.string_of_list_ascii l1 +:+ String.string_of_list_ascii l2.
Proof. induction l1 as [|x l1 IH]; [done|]. simpl. rewrite append_cons. by f_equal. Qed.

Lemma string_rev_app (a b : string) :
  string_rev (a +:+ b) = string_rev b +:+ string_rev a.
Proof.
  unfold string_rev.
  by rewrite list_ascii_of_string_app, rev_app_distr, string_of_list_ascii_app.
Qed.

Lemma string_rev_involutive (s : string) : string_rev (string_rev s) = s.
Proof.
  unfold string_rev.
  by rewrite String.list_ascii_of_string_of_list_ascii, rev_involutive,
    String.string_of_list_ascii_of_string.
Qed.

Lemma all_chars_of_list p (l : list ascii) :
  all_chars p (String.string_of_list_ascii l) = forallb p l.
Proof. induction l as [|x l IH]; simpl; [done|]. by rewrite IH. Qed.

Lemma all_chars_rev p (s : string) : all_chars p (string_rev s) = all_chars p s.
Proof.
  unfold string_rev. rewrite all_chars_of_list.
  rewrite <- (String.string_of_list_ascii_of_string s) at 2.
  rewrite all_chars_of_list.
  induction (String.list_ascii_of_string s) as [|x l IH]; simpl; [done|].
  by rewrite forallb_app, IH, andb_comm; simpl; rewrite andb_true_r.
Qed.

Lemma str_append c (s : string) : str c +:+ s = String c s.
Proof. reflexivity. Qed.

Lemma split_on_free d s :
  all_chars (fun c => negb (Ascii.eqb c d)) s = true -> split_on d s = [s].
Proof.
  induction s as [|c s IH]; simpl; [done|].
  rewrite andb_true_iff, negb_true_iff. intros [-> Hs]. by rewrite (IH Hs).
Qed.

Lemma split_on_pieces_free d s :
  Forall (fun l => all_chars (fun c => negb (Ascii.eqb c d)) l = true)
         (split_on d s).
Proof.
  induction s as [|c s IH]; simpl; [by repeat constructor|].
  destruct (Ascii.eqb c d) eqn:E; [by constructor|].
  destruct (split_on d s) as [|w ws]; [by repeat constructor; simpl; rewrite E|].
  inversion IH; subst. constructor; [simpl; by rewrite E|done].
Qed.

Lemma lines_unlines ls :
  ls <> [] -> Forall (fun l => no_newline l = true) ls -> lines (unlines ls) = ls.
Proof.
  unfold lines, unlines, no_newline. intros Hne Hall.
  induction Hall as [|x ls Hx Hls IH]; [done|].
  destruct ls as [|y ls]; [by apply split_on_free|].
  change (String.concat (str LF) (x :: y :: ls))
    with (x +:+ String LF (String.concat (str LF) (y :: ls))).
  rewrite split_on_app, (split_on_free _ _ Hx), IH; done.
Qed.

(** ** Decimal numerals *)

Local Open Scope Z_scope.

Lemma wrap64_small z : - 2 ^ 63 <= z < 2 ^ 63 -> wrap64 z = z.
Proof. intros Hz. unfold wrap64. rewrite Z.mod_small; lia. Qed.

Lemma digit_cases d :
  0 <= d < 10 ->
  d = 0 \/ d = 1 \/ d = 2 \/ d = 3 \/ d = 4 \/ d = 5 \/ d = 6 \/ d = 7 \/
  d = 8 \/ d = 9.
Proof. lia. Qed.

Lemma digit_char_is_digit d : 0 <= d < 10 -> is_digit (digit_char d) = true.
Proof. intros Hd. destruct (digit_cases d Hd) as [->|H]; [done|]. repeat (destruct H as [->|H]; [done|]). by subst. Qed.

Lemma digit_val_char d : 0 <= d < 10 -> digit_val (digit_char d) = d.
Proof. intros Hd. destruct (digit_cases d Hd) as [->|H]; [done|]. repeat (destruct H as [->|H]; [done|]). by subst. Qed.

Lemma digit_char_zero d : 0 < d < 10 -> Ascii.eqb (digit_char d) "0" = false.
Proof. intros Hd. assert (Hd' : 0 <= d < 10) by lia. destruct (digit_cases d Hd') as [->|H]; [lia|]. repeat (destruct H as [->|H]; [done|]). by subst. Qed.

Lemma strlong_loop_app base val s t :
  strlong_loop base val (s +:+ t) =
  match strlong_loop base val s with
  | Some v => strlong_loop base v t
  | None => None
  end.
Proof.
  revert val. induction s as [|c s IH]; intros val; simpl; [done|].
  destruct (is_digit c && (digit_val c <? base)); [apply IH|done].
Qed.

Lemma pos_lt_pow2_size p : Z.pos p < 2 ^ Z.of_nat (Pos.size_nat p).
Proof.
  induction p as [p IH|p IH|]; simpl Pos.size_nat;
    rewrite ?Nat2Z.inj_succ, ?Z.pow_succ_r by lia; lia.
Qed.

Lemma strlong_loop_digit val d :
  0 <= d < 10 ->
  strlong_loop 10 val (str (digit_char d)) = Some (wrap64 (val * 10 + d)).
Proof.
  intros Hd. simpl. rewrite digit_char_is_digit, digit_val_char by done.
  destruct (Z.ltb_spec d 10); [done|lia].
Qed.

Lemma numeral_digit d : 0 <= d < 10 -> numeral d (str (digit_char d)).
Proof.
  intros Hd. split; [|split].
  - simpl. by rewrite digit_char_is_digit.
  - rewrite strlong_loop_digit by done. f_equal. apply wrap64_small. lia.
  - exists (digit_char d), EmptyString. split; [done|]. split; [|done].
    intros. apply digit_char_zero. lia.
Qed.

Lemma numeral_snoc n s :
  10 <= n < 2 ^ 63 -> numeral (n / 10) s ->
  numeral n (s +:+ str (digit_char (n mod 10))).
Proof.
  intros Hn (Hd & Hl & c & r & -> & Hc & _).
  assert (Hm : 0 <= n mod 10 < 10) by (apply Z.mod_pos_bound; lia).
  split; [|split].
  - rewrite all_chars_app, Hd. simpl. by rewrite digit_char_is_digit.
  - rewrite strlong_loop_app, Hl, strlong_loop_digit by done.
    f_equal. rewrite wrap64_small; pose proof (Z.div_mod n 10); lia.
  - exists c, (r +:+ str (digit_char (n mod 10))). split; [done|].
    split; [|lia]. intros _. apply Hc. apply Z.div_str_pos. lia.
Qed.

Lemma show_pos_fuel_numeral fuel n :
  0 <= n < 2 ^ Z.of_nat (Pos.size_nat fuel) -> n < 2 ^ 63 ->
  numeral n (show_pos_fuel fuel n).
Proof.
  revert n. induction fuel as [f IH|f IH|]; intros n Hn H63;
    simpl show_pos_fuel; destruct (Z.ltb_spec n 10) as [Hlt|Hge];
    try (apply numeral_digit; lia).
  1,2: simpl Pos.size_nat in Hn;
       rewrite Nat2Z.inj_succ, Z.pow_succ_r in Hn by lia;
       apply numeral_snoc; [lia|]; apply IH;
       [split; [apply Z.div_pos; lia | apply Z.div_lt_upper_bound; lia]
       |apply Z.div_lt_upper_bound; lia].
  simpl Pos.size_nat in Hn. change (2 ^ Z.of_nat 1) with 2 in Hn. lia.
Qed.

Lemma show_nat_numeral n : 0 <= n < 2 ^ 63 -> numeral n (show_nat n).
Proof.
  intros Hn. unfold show_nat. apply show_pos_fuel_numeral; [|lia].
  destruct n as [|p|p]; [simpl; lia| |lia].
  split; [lia|]. simpl Z.to_pos. apply pos_lt_pow2_size.
Qed.

Lemma show_pos_fuel_digits fuel n :
  0 <= n -> all_chars is_digit (show_pos_fuel fuel n) = true.
Proof.
  revert n. induction fuel as [f IH|f IH|]; intros n Hn; simpl show_pos_fuel;
    destruct (Z.ltb_spec n 10) as [Hlt|Hge];
    try (simpl; by rewrite digit_char_is_digit by lia).
  1,2: rewrite all_chars_app, IH by (apply Z.div_pos; lia); simpl;
       by rewrite digit_char_is_digit by (apply Z.mod_pos_bound; lia).
  simpl. by rewrite digit_char_is_digit by (apply Z.mod_pos_bound; lia).
Qed.

Lemma show_nat_digits n : 0 <= n -> all_chars is_digit (show_nat n) = true.
Proof. apply show_pos_fuel_digits. Qed.

Lemma arith_var_show_nat n : 0 <= n < 2 ^ 63 -> arith_var (show_nat n) = Num n.
Proof.
  intros Hn. destruct (show_nat_numeral n Hn) as (Hd & Hl & c & r & Hs & Hc & H0).
  unfold arith_var. rewrite Hs in *. rewrite Hd. unfold strlong.
  destruct (Z.eq_dec n 0) as [->|Hnz].
  - rewrite (H0 eq_refl) in *.
    destruct (Ascii.eqb c "0"); [done|]. by rewrite Hl.
  - rewrite Hc by lia. by rewrite Hl.
Qed.

(** ** C1: the bump of a valid semantic version *)

Lemma read_ifs_dot_semver x y z :
  0 <= x -> 0 <= y -> 0 <= z ->
  read_ifs_dot (semver x y z) = (show_nat x, show_nat y, show_nat z).
Proof.
  intros Hx Hy Hz. unfold read_ifs_dot, semver, dotted.
  pose proof (all_chars_impl _ _ _ digit_not_dot (show_nat_digits x Hx)) as Dx.
  pose proof (all_chars_impl _ _ _ digit_not_dot (show_nat_digits y Hy)) as Dy.
  pose proof (all_chars_impl _ _ _ digit_not_dot (show_nat_digits z Hz)) as Dz.
  change (show_nat x +:+ "." +:+ show_nat y +:+ "." +:+ show_nat z)
    with (show_nat x +:+ String DOT (show_nat y +:+ String DOT (show_nat z))).
  rewrite (cut_app _ _ _ Dx), (cut_app _ _ _ Dy).
  unfold last_field. by rewrite (cut_none _ _ Dz).
Qed.

Lemma arith_succ_show_nat n :
  0 <= n < 2 ^ 63 - 1 -> arith_succ (show_nat n) = Num (n + 1).
Proof.
  intros Hn. unfold arith_succ. rewrite arith_var_show_nat by lia.
  f_equal. apply wrap64_small. lia.
Qed.

Lemma show_Z_nonneg n : 0 <= n -> show_Z n = show_nat n.
Proof. intros Hn. unfold show_Z. destruct (Z.ltb_spec n 0); [lia|done]. Qed.

(** C1 (as amended). For every valid semantic version X.Y.Z whose bumped
    component is below 2^63 - 1, the largest number the shell's arithmetic
    can still increment, the bump returns X.Y.(Z+1) for patch, X.(Y+1).0
    for minor and (X+1).0.0 for major. *)
Theorem bump_semver x y z :
  0 <= x -> 0 <= y -> 0 <= z ->
  (z < 2 ^ 63 - 1 -> bump patch (semver x y z) = Done (semver x y (z + 1))) /\
  (y < 2 ^ 63 - 1 -> bump minor (semver x y z) = Done (semver x (y + 1) 0)) /\
  (x < 2 ^ 63 - 1 -> bump major (semver x y z) = Done (semver (x + 1) 0 0)).
Proof.
  intros Hx Hy Hz. unfold bump. rewrite read_ifs_dot_semver by done.
  split; [|split]; intros Hb;
    rewrite arith_succ_show_nat, show_Z_nonneg by lia; done.
Qed.

Lemma bump_semver_witness :
  bump patch (semver 0 1 1) = Done (semver 0 1 2) /\
  bump minor (semver 0 1 1) = Done (semver 0 2 0) /\
  bump major (semver 0 1 1) = Done (semver 1 0 0).
Proof.
  destruct (bump_semver 0 1 1) as (Hp & Hn & Hm); [lia..|].
  split; [apply Hp; lia|]. split; [apply Hn; lia|apply Hm; lia].
Defined.

(** C1 as stated fails at the largest 64-bit number: the sum wraps to the
    most negative one. *)
Lemma bump_wraps_at_int64_max :
  bump patch (semver 0 0 (2 ^ 63 - 1)) = Done "0.0.-9223372036854775808" /\
  bump patch (semver 0 0 (2 ^ 63 - 1)) <> Done (semver 0 0 (2 ^ 63 - 1 + 1)).
Proof. split; [by vm_compute|]. vm_compute. discriminate. Qed.

Example bump_0_1_1 :
  semver 0 1 1 = "0.1.1" /\ bump patch "0.1.1" = Done "0.1.2" /\
  bump minor "0.1.1" = Done "0.2.0" /\ bump major "0.1.1" = Done "1.0.0".
Proof. by vm_compute. Qed.

Local Close Scope Z_scope.

(** ** The script monad *)


Lemma bind_Exit_first {A B} (m : M A) (k : A -> M B) w code w' :
  m w = (Exit code, w') -> bind m k w = (Exit code, w').
Proof. intros Hm. unfold bind. by rewrite Hm. Qed.

Section Preserves.
Context (I : world -> world -> Prop).
Hypothesis I_refl : forall w, I w w.
Hypothesis I_trans : forall w1 w2 w3, I w1 w2 -> I w2 w3 -> I w1 w3.

Lemma preserves_ret {A} (a : A) : preserves I (ret a).
Proof using I_refl. intros w r w' [= <- <-]. apply I_refl. Qed.

Lemma preserves_exit {A} code : preserves I (@exit A code).
Proof using I_refl. intros w r w' [= <- <-]. apply I_refl. Qed.

Lemma preserves_beyond {A} : preserves I (@beyond A).
Proof using I_refl. intros w r w' [= <- <-]. apply I_refl. Qed.

Lemma preserves_get : preserves I get.
Proof using I_refl. intros w r w' [= <- <-]. apply I_refl. Qed.

Lemma preserves_lift {A} (o : outcome A) : preserves I (lift o).
Proof using I_refl. intros w r w' [= <- <-]. apply I_refl. Qed.

Lemma preserves_modify f : (forall w, I w (f w)) -> preserves I (modify f).
Proof. intros Hf w r w' [= <- <-]. apply Hf. Qed.

(** The continuation only has to keep [I] on the results [m] can give. *)
Lemma preserves_bind_post {A B} (Q : A -> Prop) (m : M A) (k : A -> M B) :
  preserves I m ->
  (forall w a w', m w = (Done a, w') -> Q a) ->
  (forall a, Q a -> preserves I (k a)) ->
  preserves I (bind m k).
Proof using I_trans.
  intros Hm HQ Hk w r w'. unfold bind.
  destruct (m w) as [[a| |] w1] eqn:E.
  - intros Hr. apply (I_trans _ w1); [by eapply Hm|].
    eapply Hk; [|done]. by eapply HQ.
  - intros [= <- <-]. by eapply Hm.
  - intros [= <- <-]. by eapply Hm.
Qed.

Lemma preserves_bind {A B} (m : M A) (k : A -> M B) :
  preserves I m -> (forall a, preserves I (k a)) -> preserves I (bind m k).
Proof using I_trans.
  intros Hm Hk. apply (preserves_bind_post (fun _ => True)); auto.
Qed.

Lemma preserves_when b m : preserves I m -> preserves I (when_ b m).
Proof using I_refl. intros Hm. destruct b; [done|apply preserves_ret]. Qed.

Lemma preserves_read_line :
  (forall w l rest, stdin w = l :: rest ->
     I w (World (local w) (remote w) (objects w) rest (trace w))) ->
  preserves I read_line.
Proof using I_refl.
  intros Hread w r w'. unfold read_line.
  destruct (stdin w) as [|l rest] eqn:E; intros [= <- <-]; eauto.
Qed.
End Preserves.

(** Proves [preserves I m] along the structure of [m], leaving the state
    changes of [modify] and [read_line] to [tac]. *)
Ltac preserves_with Hrefl Htrans tac :=
  repeat first
    [ apply (preserves_ret _ Hrefl)
    | apply (preserves_exit _ Hrefl)
    | apply (preserves_beyond _ Hrefl)
    | apply (preserves_get _ Hrefl)
    | apply (preserves_lift _ Hrefl)
    | apply (preserves_when _ Hrefl)
    | apply (preserves_bind _ Htrans); [|intros ?]
    | apply preserves_modify; intros ?; tac
    | apply (preserves_read_line _ Hrefl); intros ? ? ? ?; tac
    | match goal with
      | |- preserves _ (if ?b then _ else _) => destruct b
      | |- preserves _ (match ?x with _ => _ end) => destruct x
      end ].

(** ** C3: the safety checks and the checkout *)

Lemma same_checkout_refl w : same_checkout w w.
Proof. by repeat split. Qed.

Lemma same_checkout_trans w1 w2 w3 :
  same_checkout w1 w2 -> same_checkout w2 w3 -> same_checkout w1 w3.
Proof.
  intros (?&?&?&?&?&?) (?&?&?&?&?&?). repeat split; congruence.
Qed.

Ltac checkout_kept :=
  preserves_with same_checkout_refl same_checkout_trans
    ltac:(by repeat split).

Lemma read_and_bump_pure kind w r w' :
  read_and_bump kind w = (r, w') -> w' = w.
Proof.
  unfold read_and_bump, bind, get, die, exit, lift, ret.
  repeat case_match; by intros [= <- <-].
Qed.

Lemma git_fetch_tags_checkout e : preserves same_checkout (git_fetch_tags e).
Proof. unfold git_fetch_tags, emit. checkout_kept. Qed.

Lemma git_fetch_checkout e : preserves same_checkout (git_fetch e).
Proof. unfold git_fetch, emit. checkout_kept. Qed.

Lemma preflight_checkout e TAG : preserves same_checkout (preflight e TAG).
Proof.
  unfold preflight, die.
  pose proof (git_fetch_tags_checkout e). pose proof (git_fetch_checkout e).
  checkout_kept; done.
Qed.

Lemma through_preflight_checkout e kind :
  preserves same_checkout (through_preflight e kind).
Proof.
  unfold through_preflight.
  apply (preserves_bind _ same_checkout_trans).
  - intros w r w' Hr. rewrite (read_and_bump_pure _ _ _ _ Hr).
    apply same_checkout_refl.
  - intros v. pose proof (preflight_checkout e (tag_of v.2)). checkout_kept; done.
Qed.

(** C3 (as amended). A release run that fails at or before the end of the
    safety checks leaves the working tree, the index, HEAD and the branch
    heads as they were, and does nothing to [origin] or to the commits;
    the two fetches may add tags and move remote-tracking refs. *)
Theorem preflight_failure_keeps_checkout e kind w code w' :
  through_preflight e kind w = (Exit code, w') ->
  release e kind w = (Exit code, w') /\ same_checkout w w'.
Proof.
  intros Hrun. split.
  - unfold release. by apply bind_Exit_first.
  - by eapply through_preflight_checkout.
Qed.

Lemma preflight_failure_keeps_checkout_witness :
  release sample_env patch
    (sample_world manifest_0_1_1 manifest_0_1_1 {[ "v0.1.2" := 0 ]} []) =
  (Exit 1,
   snd (through_preflight sample_env patch
          (sample_world manifest_0_1_1 manifest_0_1_1 {[ "v0.1.2" := 0 ]} []))) /\
  same_checkout
    (sample_world manifest_0_1_1 manifest_0_1_1 {[ "v0.1.2" := 0 ]} [])
    (snd (through_preflight sample_env patch
          (sample_world manifest_0_1_1 manifest_0_1_1 {[ "v0.1.2" := 0 ]} []))).
Proof.
  apply (preflight_failure_keeps_checkout sample_env patch
           (sample_world manifest_0_1_1 manifest_0_1_1 {[ "v0.1.2" := 0 ]} []) 1).
  vm_compute. reflexivity.
Defined.

(** C3 as stated fails on the refs: when only [origin] has the tag, the
    run dies at the remote-tag check, after [git fetch --tags] has created
    the tag locally. *)
Lemma preflight_fetch_creates_tag :
  let w := sample_world manifest_0_1_1 manifest_0_1_1 {[ "v0.1.2" := 0 ]} [] in
  let run := release sample_env patch w in
  fst run = Exit 1 /\
  trace (snd run) = [GitFetchTags] /\
  tags (local w) !! "v0.1.2" = None /\
  tags (local (snd run)) !! "v0.1.2" = Some 0 /\
  local (snd run) <> local w.
Proof.
  do 4 (split; [by vm_compute|]).
  intros Heq. apply (f_equal (fun r => tags r !! "v0.1.2")) in Heq.
  vm_compute in Heq. discriminate.
Qed.

(** ** C5: the order of the transaction *)


(** As [run_inv], keeping what each test decided. *)
Ltac run_inv_eq H :=
  cbn in H;
  repeat (first
            [ discriminate H
            | match type of H with
              | context [match ?x with _ => _ end] =>
                  lazymatch x with
                  | context [match _ with _ => _ end] => fail
                  | _ => destruct x eqn:?
                  end
              end ];
          cbn in H).











Example release_0_1_1 :
  let run := release sample_env patch
               (sample_world manifest_0_1_1 manifest_0_1_1 ∅
                  ["fix the prompt"; "y"]) in
  fst run = Done tt /\
  trace (snd run) =
    [GitFetchTags; GitFetch; SedVersion "0.1.1" "0.1.2"; CargoCheck;
     GitAdd [CARGO_TOML; CARGO_LOCK]; GitCommit "v0.1.2: fix the prompt";
     GitTag "v0.1.2"; GitPush; GitPushTag "v0.1.2"] /\
  current_version (worktree (local (snd run)) !! CARGO_TOML) = Done "0.1.2" /\
  tags (local (snd run)) !! "v0.1.2" = Some 1 /\
  o_tags (remote (snd run)) !! "v0.1.2" = Some 1 /\
  o_heads (remote (snd run)) !! "main" = Some 1.
Proof. repeat split; by vm_compute. Qed.

(** ** C9: the commit message *)
























Lemma starts_v_digit_app s t :
  starts_v_digit s = true -> starts_v_digit (s +:+ t) = true.
Proof. by destruct s as [|a [|c s]]. Qed.

Lemma normalize_message_kept TAG reply :
  starts_v_digit reply = true -> normalize_message TAG reply = reply.
Proof.
  intros Hr. unfold normalize_message.
  destruct (String.eqb_spec reply EmptyString) as [->|_]; [done|].
  by rewrite Hr.
Qed.



Lemma normalize_message_pattern TAG reply :
  starts_v_digit TAG = true ->
  starts_v_digit (normalize_message TAG reply) = true.
Proof.
  intros Ht. unfold normalize_message.
  destruct (String.eqb reply EmptyString).
  - by rewrite !starts_v_digit_app.
  - destruct (starts_v_digit reply) eqn:E; [done|]. by apply starts_v_digit_app.
Qed.



(** The reply that is used is the one typed at the prompt; with the empty
    reply the commit of v0.1.2 holds "v0.1.2:". *)
Example commit_messages_0_1_2 :
  let stored input :=
    map c_message
      (objects (snd (release sample_env patch
                       (sample_world manifest_0_1_1 manifest_0_1_1 ∅ input)))) in
  stored ["  fix the prompt  "; "y"] = ["init"; "v0.1.2: fix the prompt" +:+ nl] /\
  stored ["v0.1.2 - fixes"; "y"] = ["init"; "v0.1.2 - fixes" +:+ nl] /\
  stored [EmptyString; "y"] = ["init"; "v0.1.2:" +:+ nl].
Proof. repeat split; by vm_compute. Qed.


Lemma show_pos_fuel_nonempty fuel n : show_pos_fuel fuel n <> EmptyString.
Proof.
  destruct fuel; simpl; destruct (n <? 10)%Z; try done;
    by destruct (show_pos_fuel _ _).
Qed.

(** The tag of a valid semantic version has the release tag pattern. *)
Lemma semver_tag_pattern x y z :
  (0 <= x)%Z -> starts_v_digit (tag_of (semver x y z)) = true.
Proof.
  intros Hx. unfold tag_of, semver, dotted.
  pose proof (show_nat_digits x Hx) as Hd.
  pose proof (show_pos_fuel_nonempty (Z.to_pos x) x) as Hne.
  fold (show_nat x) in Hne. destruct (show_nat x) as [|c r]; [done|].
  simpl in Hd. apply andb_true_iff in Hd as [Hc _]. by simpl.
Qed.

(** ** C2: declining the final confirmation *)

(** C2. With an edit to the manifest that was never committed, which the
    safety checks let through, declining the final confirmation does not
    leave the working tree as it was: [git checkout -- Cargo.toml
    Cargo.lock] writes the committed manifest over the edit. *)
Theorem decline_discards_manifest_edit :
  let w := sample_world manifest_0_1_1 manifest_edited ∅ [EmptyString; "n"] in
  let run := release sample_env patch w in
  fst run = Exit 1 /\
  trace (snd run) =
    [GitFetchTags; GitFetch; SedVersion "0.1.1" "0.1.2"; CargoCheck;
     GitCheckout [CARGO_TOML; CARGO_LOCK]] /\
  worktree (local w) !! CARGO_TOML = Some manifest_edited /\
  worktree (local (snd run)) !! CARGO_TOML = Some manifest_0_1_1 /\
  worktree (local (snd run)) <> worktree (local w).
Proof.
  do 4 (split; [by vm_compute|]).
  intros Heq. apply (f_equal (fun t : gmap string string => t !! CARGO_TOML)) in Heq.
  vm_compute in Heq. discriminate.
Qed.

(** With a manifest and a lockfile as committed, the decline does leave
    the working tree as it was. *)
Example decline_restores_committed_manifest :
  let w := sample_world manifest_0_1_1 manifest_0_1_1 ∅ [EmptyString; "n"] in
  let run := release sample_env patch w in
  fst run = Exit 1 /\ worktree (local (snd run)) = worktree (local w).
Proof. split; [by vm_compute|]. vm_compute. reflexivity. Qed.

(** ** C6: what the read rejects *)

(** C6 (as amended). The release command ends before any bump, with
    nothing touched, when the manifest has no line that starts with
    "version" or does not exist (with the status of the failed read, 1 or
    2), and when the text between the last two double quotes of the first
    such line is empty (with status 1). *)
Theorem release_aborts_without_version e kind w :
  (forall code,
     current_version (worktree (local w) !! CARGO_TOML) = Exit code ->
     release e kind w = (Exit code, w)) /\
  (current_version (worktree (local w) !! CARGO_TOML) = Done EmptyString ->
   release e kind w = (Exit 1, w)).
Proof.
  unfold release, through_preflight, read_and_bump, bind, get, lift.
  split; [intros code Hcur|intros Hcur]; by rewrite Hcur.
Qed.

Lemma release_aborts_without_version_witness :
  release sample_env patch
    (sample_world (manifest_with "edition = 2021") (manifest_with "edition = 2021")
       ∅ []) =
  (Exit 1,
   sample_world (manifest_with "edition = 2021") (manifest_with "edition = 2021")
     ∅ []) /\
  release sample_env patch
    (sample_world (manifest_with ("version = " +:+ quoted EmptyString))
       (manifest_with ("version = " +:+ quoted EmptyString)) ∅ []) =
  (Exit 1,
   sample_world (manifest_with ("version = " +:+ quoted EmptyString))
     (manifest_with ("version = " +:+ quoted EmptyString)) ∅ []).
Proof.
  split.
  - apply (proj1 (release_aborts_without_version sample_env patch _)).
    vm_compute. reflexivity.
  - apply (proj2 (release_aborts_without_version sample_env patch _)).
    vm_compute. reflexivity.
Defined.

(** The read fails exactly on a manifest without a version line. *)
Lemma current_version_no_line text :
  current_version (Some text) = Exit 1 <->
  Forall (fun l => starts_with "version" l = false) (lines text).
Proof.
  assert (Hnone : forall ls,
            List.filter (starts_with "version") ls = [] <->
            Forall (fun l => starts_with "version" l = false) ls).
  { induction ls as [|l ls IH]; cbn [List.filter].
    - split; [constructor|done].
    - destruct (starts_with "version" l) eqn:E.
      + split; [done|]. intros Hall. apply Forall_inv in Hall. congruence.
      + rewrite IH. split; [by constructor|apply Forall_inv_tail]. }
  unfold current_version. rewrite <- Hnone.
  destruct (List.filter (starts_with "version") (lines text)) as [|l rest];
    [done|].
  split; [|done]. by repeat case_match.
Qed.

(** C6 as stated fails: a version that is not a dotted triple of numbers
    is read and bumped. With "1.2.x" a minor release goes through to the
    pushed tag v1.3.0, and "1.2" is patched to 1.2.1. *)
Lemma release_accepts_malformed_version :
  let m := manifest_with ("version = " +:+ quoted "1.2.x") in
  let run := release sample_env minor
               (sample_world m m ∅ [EmptyString; EmptyString]) in
  dotted_triple "1.2.x" = false /\
  current_version (Some m) = Done "1.2.x" /\
  fst run = Done tt /\
  In (GitPushTag "v1.3.0") (trace (snd run)) /\
  dotted_triple "1.2" = false /\
  bump patch "1.2" = Done "1.2.1".
Proof.
  do 3 (split; [by vm_compute|]). split; [vm_compute; tauto|].
  split; by vm_compute.
Qed.

(** ** C8: the version rewrite *)

(** A text without a line that matches is written back as it is. *)
Lemma sed_version_no_match cur new text :
  all_chars sed_ordinary cur = true -> all_chars sed_ordinary new = true ->
  Forall (fun l => bre_match (version_prefix cur) l = None) (lines text) ->
  sed_version cur new text = text.
Proof.
  intros _ _ Hall. unfold sed_version.
  rewrite <- (unlines_lines text) at 2. f_equal.
  induction Hall as [|l ls Hl _ IH]; simpl; [done|].
  unfold sed_version_line at 1. by rewrite Hl, IH.
Qed.

(** C8. The rewrite is not confined to the version field that was read:
    the read takes the first version line only, the write replaces every
    line that begins with the version assignment. Here the pin of a
    dependency table changes with the package version. *)
Theorem version_rewrite_hits_dependency_table :
  current_version (Some manifest_two_tables) = Done "0.1.1" /\
  lines manifest_two_tables =
    [ "[package]"; "name = " +:+ quoted "shelldeck";
      "version = " +:+ quoted "0.1.1"; EmptyString;
      "[dependencies.shelldeck-core]"; "version = " +:+ quoted "0.1.1";
      EmptyString ] /\
  lines (sed_version "0.1.1" "0.1.2" manifest_two_tables) =
    [ "[package]"; "name = " +:+ quoted "shelldeck";
      "version = " +:+ quoted "0.1.2"; EmptyString;
      "[dependencies.shelldeck-core]"; "version = " +:+ quoted "0.1.2";
      EmptyString ].
Proof. repeat split; by vm_compute. Qed.

(** ** C7: the discovery loop ends *)

Lemma waits_succ k attempts :
  attempts < k ->
  waits (k - attempts) = GhRunList :: Sleep 10 :: waits (k - (attempts + 1)).
Proof.
  intros Hlt. replace (k - attempts) with (S (k - (attempts + 1))) by lia. done.
Qed.

Lemma discover_from fuel tag listings attempts :
  attempts < max_attempts -> max_attempts <= attempts + fuel ->
  (exists k, attempts <= k < max_attempts /\
     no_run (query_run_id tag (listings k)) = false /\
     (forall j, attempts <= j < k ->
        no_run (query_run_id tag (listings j)) = true) /\
     discover fuel tag listings attempts =
       (RunFound (query_run_id tag (listings k)),
        (waits (k - attempts) ++ [GhRunList])%list)) \/
  ((forall j, attempts <= j < max_attempts ->
      no_run (query_run_id tag (listings j)) = true) /\
   discover fuel tag listings attempts =
     (TimedOut, (waits (max_attempts - 1 - attempts) ++ [GhRunList])%list)).
Proof.
  unfold max_attempts. revert attempts.
  induction fuel as [|fuel IH]; intros attempts Hlt Hfuel; [lia|].
  cbn [discover].
  destruct (no_run (query_run_id tag (listings attempts))) eqn:Hq.
  - unfold max_attempts. destruct (Nat.leb_spec 30 (attempts + 1)) as [Hlast|Hmore].
    + right. replace (30 - 1 - attempts) with 0 by lia. split; [|done].
      intros j Hj. by replace j with attempts by lia.
    + destruct (IH (attempts + 1)) as [(k & Hk & Hfound & Hbefore & ->)|[Hnone ->]];
        [lia..| |].
      * left. exists k. split; [lia|]. split; [done|]. split.
        -- intros j Hj. destruct (decide (j = attempts)) as [->|]; [done|].
           apply Hbefore. lia.
        -- by rewrite (waits_succ k attempts) by lia.
      * right. split.
        -- intros j Hj. destruct (decide (j = attempts)) as [->|]; [done|].
           apply Hnone. lia.
        -- by rewrite (waits_succ (30 - 1) attempts) by lia.
  - left. exists attempts. split; [lia|]. split; [done|]. split; [lia|].
    by rewrite Nat.sub_diag.
Qed.

(** C7. Whatever the queries return, the discovery loop ends within its
    30 attempts (more fuel changes nothing): either the run id of the
    first query that finds one, after a 10-second sleep for each failed
    query before it, or the timeout, after 30 failed queries with a
    10-second sleep between them. *)
Theorem discovery_is_bounded tag listings extra :
  (exists k, k < max_attempts /\
     no_run (query_run_id tag (listings k)) = false /\
     (forall j, j < k -> no_run (query_run_id tag (listings j)) = true) /\
     discover (max_attempts + extra) tag listings 0 =
       (RunFound (query_run_id tag (listings k)),
        (waits k ++ [GhRunList])%list)) \/
  ((forall j, j < max_attempts ->
      no_run (query_run_id tag (listings j)) = true) /\
   discover (max_attempts + extra) tag listings 0 =
     (TimedOut, (waits (max_attempts - 1) ++ [GhRunList])%list)).
Proof.
  destruct (discover_from (max_attempts + extra) tag listings 0)
    as [(k & Hk & Hfound & Hbefore & Hrun)|[Hnone Hrun]];
    [unfold max_attempts; lia..| |].
  - left. exists k. rewrite Nat.sub_0_r in Hrun.
    split; [lia|]. split; [done|]. split; [|done].
    intros j Hj. apply Hbefore. lia.
  - right. rewrite Nat.sub_0_r in Hrun. split; [|done].
    intros j Hj. apply Hnone. lia.
Qed.

Example discovery_third_query :
  discover max_attempts "v0.1.2"
    (fun n => if Nat.ltb n 2 then Some [CiRun "41" "Release v0.1.1"]
              else Some [CiRun "42" "Release v0.1.2"; CiRun "41" "Release v0.1.1"])
    0 =
  (RunFound "42", [GhRunList; Sleep 10; GhRunList; Sleep 10; GhRunList]).
Proof. by vm_compute. Qed.

Example discovery_times_out :
  fst (discover max_attempts "v0.1.2" (fun _ => None) 0) = TimedOut /\
  List.filter (fun ev => match ev with Sleep _ => true | _ => false end)
    (snd (discover max_attempts "v0.1.2" (fun _ => None) 0)) =
  repeat (Sleep 10) 29.
Proof. split; by vm_compute. Qed.

(** ** C4 and C10: the verdict of the verification *)

(** A name that occurs inside an asset line is selected. *)
Lemma grep_qF_contains x name assets :
  In name (lines assets) -> contains x name = true -> grep_qF x assets = true.
Proof.
  intros Hin Hc. unfold grep_qF, grep_line. apply existsb_exists. exists name.
  split; [done|]. apply existsb_exists.
  destruct (split_on_head LF x) as (p & ps & r & Hp & Hx & _).
  exists p. unfold lines. rewrite Hp. split; [by left|].
  rewrite Hx in Hc. by eapply contains_app_l.
Qed.






Lemma echo_grep_qF_plain pat text b :
  echo_grep_qF pat text = Some b -> name_plain pat = true.
Proof. unfold echo_grep_qF. by destruct (name_plain pat). Qed.

Lemma scan_expected_spec expected assets f m names ok r :
  scan_expected expected assets (f, m, names, ok) = Some r ->
  r = (f + length (List.filter (found_in assets) expected),
       m + length (List.filter (missing_in assets) expected),
       (names ++ List.filter (missing_in assets) expected)%list,
       ok && forallb (found_in assets) expected) /\
  Forall (fun x => name_plain x = true) expected.
Proof.
  revert f m names ok r.
  induction expected as [|x rest IH]; intros f m names ok r; cbn [scan_expected].
  - intros [= <-]. cbn. by rewrite !Nat.add_0_r, app_nil_r, andb_true_r.
  - unfold missing_in in *. unfold found_in in *. cbn [List.filter forallb].
    destruct (echo_grep_qF x assets) as [[|]|] eqn:E; [| |done].
    + intros Hr. destruct (IH _ _ _ _ _ Hr) as [-> Hall].
      rewrite bool_decide_eq_true_2 by done. cbn [negb length andb].
      split; [f_equal; f_equal; f_equal; lia|].
      constructor; [by eapply echo_grep_qF_plain|done].
    + intros Hr. destruct (IH _ _ _ _ _ Hr) as [-> Hall].
      rewrite bool_decide_eq_false_2 by done. cbn [negb length andb].
      split; [|constructor; [by eapply echo_grep_qF_plain|done]].
      rewrite andb_false_r, <- app_assoc. f_equal; f_equal; f_equal; lia.
Qed.

Lemma none_missing assets expected :
  forallb (found_in assets) expected = true <->
  List.filter (missing_in assets) expected = [].
Proof.
  unfold missing_in.
  induction expected as [|x rest IH]; simpl; [done|].
  destruct (found_in assets x); simpl; [done|]. split; done.
Qed.

(** What a completed verification reports, field by field. *)
Lemma cmd_check_with_Done expected c arg rep :
  cmd_check_with expected c arg = Done rep ->
  exists tag is_draft assets,
    tag = (if String.eqb arg EmptyString then latest_tag c else arg) /\
    release_view c tag = Some (is_draft, assets) /\
    found rep = length (List.filter (found_in assets) expected) /\
    missing rep = length (List.filter (missing_in assets) expected) /\
    missing_names rep = List.filter (missing_in assets) expected /\
    extra rep = extra_artifacts expected assets /\
    probes rep =
      [ (download_url (REPO c) tag "shelldeck-linux-x86_64.tar.gz",
         http_code c (download_url (REPO c) tag "shelldeck-linux-x86_64.tar.gz"));
        (download_url (REPO c) tag "shelldeck-macos-aarch64.zip",
         http_code c (download_url (REPO c) tag "shelldeck-macos-aarch64.zip")) ] /\
    all_ok rep =
      forallb (found_in assets) expected &&
      String.eqb (http_code c (download_url (REPO c) tag "shelldeck-linux-x86_64.tar.gz")) "200" &&
      String.eqb (http_code c (download_url (REPO c) tag "shelldeck-macos-aarch64.zip")) "200".
Proof.
  unfold cmd_check_with. destruct (gh_ready c); [|done]. cbn [negb].
  set (tag := if String.eqb arg EmptyString then latest_tag c else arg).
  destruct (String.eqb tag EmptyString); [done|].
  destruct (release_view c tag) as [[is_draft assets]|] eqn:Hview; [|done].
  destruct (echo_option assets); [done|].
  destruct (scan_expected expected assets (0, 0, [], true))
    as [[[[f m] names] ok]|] eqn:Hscan; [|done].
  apply scan_expected_spec in Hscan as [[= -> -> -> ->] _]. intros [= <-].
  exists tag, is_draft, assets. cbn.
  do 7 (split; [done|]).
  by destruct (String.eqb _ "200"), (String.eqb _ "200"),
    (forallb (found_in assets) expected).
Qed.


(** C4. The verdict is true with an expected artifact missing. The release
    has every expected artifact but the checksum file SHA256SUMS.txt, and
    a signature SHA256SUMS.txt.asc. No asset is named SHA256SUMS.txt, and
    the loop over the extra artifacts, which compares the names with
    [==], lists the signature as an asset that is not expected; yet the
    loop over the expected names, which looks with [grep -qF], counts the
    checksum file as found, inside the name of the signature, and the
    verification ends with 5 found, nothing missing and a true verdict. *)
Theorem check_passes_without_checksum_file :
  ~ In "SHA256SUMS.txt" (map trim (lines assets_signed)) /\
  spec_missing EXPECTED_ARTIFACTS assets_signed = ["SHA256SUMS.txt"] /\
  cmd_check (sample_check assets_signed) "v0.1.2" = Done report_signed /\
  found report_signed = 5 /\
  missing report_signed = 0 /\
  missing_names report_signed = [] /\
  extra report_signed = ["SHA256SUMS.txt.asc"] /\
  all_ok report_signed = true.
Proof.
  split.
  { intros Hin. vm_compute in Hin. intuition discriminate. }
  split; [by vm_compute|]. split; [vm_compute; reflexivity|].
  repeat split.
Qed.

(** With the checksum file in the release the report is the same but for
    the extras; without the signature the file is missing and the verdict
    false. The verdict cannot tell the first two releases apart. *)
Example check_with_and_without_signature :
  verdict_of (cmd_check (sample_check (assets_signed +:+ nl +:+ "SHA256SUMS.txt"))
                "v0.1.2") = Some (5, 0, [], true) /\
  verdict_of (cmd_check (sample_check assets_signed) "v0.1.2") =
    Some (5, 0, [], true) /\
  verdict_of (cmd_check
                (sample_check
                   ("shelldeck-linux-x86_64.tar.gz" +:+ nl +:+
                    "shelldeck-macos-aarch64.zip" +:+ nl +:+
                    "shelldeck-windows-x86_64.zip" +:+ nl +:+
                    "ShellDeck-x86_64.AppImage"))
                "v0.1.2") = Some (4, 1, ["SHA256SUMS.txt"], false).
Proof. repeat split; by vm_compute. Qed.




Example checksum_found_in_its_signature :
  existsb (String.eqb "SHA256SUMS.txt") (lines assets_signed) = false /\
  contains "SHA256SUMS.txt" "SHA256SUMS.txt.asc" = true /\
  found_in assets_signed "SHA256SUMS.txt" = true.
Proof. repeat split; by vm_compute. Qed.

(** * Further properties of the script *)

(** ** The counts and the extras of cmd_check *)

Lemma filter_split_length {A} (f : A -> bool) (l : list A) :
  length (List.filter f l) + length (List.filter (fun x => negb (f x)) l) =
  length l.
Proof.
  induction l as [|x l IH]; simpl; [done|].
  destruct (f x); simpl; lia.
Qed.


(** X1. The counts of a completed verification add up: every expected
    artifact is counted once, as found or as missing, and the missing
    count is the number of names printed as missing; with a true verdict
    nothing is missing. *)
Theorem check_counts_add_up expected c arg rep :
  cmd_check_with expected c arg = Done rep ->
  found rep + missing rep = length expected /\
  missing rep = length (missing_names rep) /\
  (all_ok rep = true -> missing rep = 0 /\ found rep = length expected).
Proof.
  intros Hrun.
  destruct (cmd_check_with_Done _ _ _ _ Hrun)
    as (tag & d & assets & _ & _ & Hf & Hm & Hn & _ & _ & Hok).
  assert (Hsum : found rep + missing rep = length expected).
  { rewrite Hf, Hm. apply (filter_split_length (found_in assets)). }
  split; [done|]. split; [by rewrite Hm, Hn|].
  intros Hall. rewrite Hall in Hok. symmetry in Hok.
  apply andb_true_iff in Hok as [Hok _]. apply andb_true_iff in Hok as [Hok _].
  apply none_missing in Hok. rewrite Hm, Hok in *. simpl in *. lia.
Qed.

Lemma check_counts_add_up_witness :
  found report_signed + missing report_signed = length EXPECTED_ARTIFACTS /\
  missing report_signed = length (missing_names report_signed) /\
  (all_ok report_signed = true ->
   missing report_signed = 0 /\ found report_signed = length EXPECTED_ARTIFACTS).
Proof.
  apply (check_counts_add_up EXPECTED_ARTIFACTS (sample_check assets_signed)
           "v0.1.2").
  vm_compute. reflexivity.
Defined.



(** ** The commit message, once more *)

(** X3. Normalising is idempotent under a release tag: a message that the
    script has normalised passes through the same check unchanged, so a
    message copied from an earlier release commit is not prefixed again. *)
Theorem normalize_message_idempotent TAG reply :
  starts_v_digit TAG = true ->
  normalize_message TAG (normalize_message TAG reply) =
  normalize_message TAG reply.
Proof.
  intros Ht. apply normalize_message_kept. by apply normalize_message_pattern.
Qed.

Lemma normalize_message_idempotent_witness :
  normalize_message "v0.1.2" (normalize_message "v0.1.2" "fix the prompt") =
  normalize_message "v0.1.2" "fix the prompt".
Proof. apply normalize_message_idempotent. reflexivity. Defined.

(** ** The safety checks, once more *)

(** X4. A tracked change outside the manifest and the lockfile, a staged
    change, or a tag of the new version that exists locally, each stop the
    release with status 1 before the script has issued any command: both
    repositories, standard input and the manifest are as they were. *)
Theorem release_refuses_before_acting e kind w cur new :
  read_and_bump kind w = (Done (cur, new), w) ->
  worktree_dirty [CARGO_TOML; CARGO_LOCK] (local w) = true \/
  index_dirty (objects w) (local w) = true \/
  (all_chars pattern_literal (tag_of new) = true /\
   is_Some (tags (local w) !! tag_of new)) ->
  release e kind w = (Exit 1, w).
Proof.
  intros Hread Hwhy.
  unfold release, through_preflight, bind. rewrite Hread.
  unfold preflight, bind, get, when_, die, exit, ret. cbn [snd].
  destruct (worktree_dirty _ _); [done|].
  destruct (index_dirty _ _); [done|].
  destruct Hwhy as [?|[?|[Hlit Htag]]]; [done..|].
  rewrite Hlit. cbn [negb]. by rewrite bool_decide_eq_true_2.
Qed.

Lemma release_refuses_before_acting_witness :
  release sample_env patch
    (World (Repo (<["src/main.rs" := "fn main() { todo!() }"]>
                    (sample_tree manifest_0_1_1))
                 (sample_tree manifest_0_1_1) (OnBranch "main")
                 {[ "main" := 0 ]} ∅ {[ "main" := 0 ]})
           (Origin {[ "main" := 0 ]} ∅)
           [Commit [] (sample_tree manifest_0_1_1) "init"] [] []) =
  (Exit 1,
   World (Repo (<["src/main.rs" := "fn main() { todo!() }"]>
                  (sample_tree manifest_0_1_1))
               (sample_tree manifest_0_1_1) (OnBranch "main")
               {[ "main" := 0 ]} ∅ {[ "main" := 0 ]})
         (Origin {[ "main" := 0 ]} ∅)
         [Commit [] (sample_tree manifest_0_1_1) "init"] [] []).
Proof.
  apply (release_refuses_before_acting sample_env patch _ "0.1.1" "0.1.2").
  - vm_compute. reflexivity.
  - left. vm_compute. reflexivity.
Defined.

(** X5. The up-to-date check lets a release through only when HEAD is the
    commit of origin's main or one of its ancestors, that is, level with
    origin or behind it; a branch with commits that origin does not have
    is refused. *)
Theorem up_to_date_check_passes_behind e TAG w u w' l r :
  preflight e TAG w = (Done u, w') ->
  head_commit (local w) = Some l ->
  o_heads (remote w) !! "main" = Some r ->
  l = r \/ ancestor (objects w) l r = true.
Proof.
  unfold preflight, git_fetch_tags, git_fetch, read_line, when_, die, bind,
    get, emit, modify, ret, exit, beyond.
  intros H Hl Hr. run_inv_eq H.
  all: match goal with
       | Hn : head_commit _ = Some ?n, Hm : _ !! "main" = Some ?m,
         Hc : negb (?n =? ?m)%nat && _ = false |- _ =>
           change (head_commit (local w) = Some n) in Hn;
           rewrite (lookup_union_Some_l _ _ _ _ Hr) in Hm;
           simplify_eq;
           apply andb_false_iff in Hc as [Hc|Hc]; apply negb_false_iff in Hc;
           [left; by apply Nat.eqb_eq|by right]
       end.
Qed.

Lemma up_to_date_check_passes_behind_witness :
  0 = 0 \/
  ancestor (objects (sample_world manifest_0_1_1 manifest_0_1_1 ∅ [])) 0 0 = true.
Proof.
  apply (up_to_date_check_passes_behind sample_env "v0.1.2"
           (sample_world manifest_0_1_1 manifest_0_1_1 ∅ []) tt
           (snd (preflight sample_env "v0.1.2"
                   (sample_world manifest_0_1_1 manifest_0_1_1 ∅ [])))).
  - vm_compute. reflexivity.
  - reflexivity.
  - reflexivity.
Defined.

(** With one commit that origin does not have the release is refused at
    the up-to-date check; one commit behind origin it passes the checks,
    commits and tags, and then has its push rejected. *)
Example release_ahead_and_behind :
  let tree := sample_tree manifest_0_1_1 in
  let store := [Commit [] tree "init"; Commit [0] tree "more"] in
  let clone at_commit :=
    Repo tree tree (OnBranch "main") {[ "main" := at_commit ]} ∅
         {[ "main" := 0 ]} in
  let ahead := World (clone 1) (Origin {[ "main" := 0 ]} ∅) store
                     [EmptyString; "y"] [] in
  let behind := World (clone 0) (Origin {[ "main" := 1 ]} ∅) store
                      [EmptyString; "y"] [] in
  release sample_env patch ahead =
    (Exit 1,
     World (clone 1) (Origin {[ "main" := 0 ]} ∅) store [EmptyString; "y"]
           [GitFetchTags; GitFetch]) /\
  fst (release sample_env patch behind) = Exit 1 /\
  trace (snd (release sample_env patch behind)) =
    [GitFetchTags; GitFetch; SedVersion "0.1.1" "0.1.2"; CargoCheck;
     GitAdd [CARGO_TOML; CARGO_LOCK]; GitCommit "v0.1.2: "; GitTag "v0.1.2";
     GitPush].
Proof. split; [vm_compute; reflexivity|]. split; vm_compute; reflexivity. Qed.

(** ** What reaches origin *)











(** X7. A failed [git push] is not rolled back: when the transaction ends
    at the push (origin unreachable, or the push not a fast-forward), the
    release commit, with the staged tree and the message as git cleans it
    up, and the tag stay in the local repository, HEAD at the new commit,
    and origin is as it was. *)
Theorem failed_push_leaves_commit_and_tag e TAG msg w code w' :
  transaction e TAG msg w = (Exit code, w') ->
  trace w' =
    (trace w ++ [GitAdd [CARGO_TOML; CARGO_LOCK]; GitCommit msg; GitTag TAG;
                 GitPush])%list ->
  remote w' = remote w /\
  (exists cm, objects w' = (objects w ++ [cm])%list /\
     c_message cm = git_stripspace msg /\ c_tree cm = index (local w')) /\
  head_commit (local w') = Some (length (objects w)) /\
  tags (local w') !! TAG = Some (length (objects w)).
Proof.
  unfold transaction, git_add, git_commit, git_tag, git_push, git_push_tag,
    bind, get, emit, modify, ret, exit.
  intros H Ht. run_inv_eq H; injection H as <- <-; cbn in Ht |- *;
    rewrite <- ?app_assoc in Ht; apply app_inv_head in Ht; cbn in Ht;
    try discriminate Ht.
  all: rewrite ?lookup_insert_eq in *; simplify_eq.
  all: split; [done|]; split; [by eexists|]; by rewrite ?lookup_insert_eq.
Qed.

Lemma failed_push_leaves_commit_and_tag_witness :
  let w := World (Repo (<[CARGO_TOML := manifest_edited]> (sample_tree manifest_0_1_1))
                       (sample_tree manifest_0_1_1) (OnBranch "main")
                       {[ "main" := 0 ]} ∅ {[ "main" := 0 ]})
                 (Origin {[ "main" := 1 ]} ∅)
                 [Commit [] (sample_tree manifest_0_1_1) "init";
                  Commit [0] (sample_tree manifest_0_1_1) "more"] [] [] in
  let w' := snd (transaction sample_env "v0.1.2" "v0.1.2: " w) in
  remote w' = remote w /\
  (exists cm, objects w' = (objects w ++ [cm])%list /\
     c_message cm = git_stripspace "v0.1.2: " /\ c_tree cm = index (local w')) /\
  head_commit (local w') = Some (length (objects w)) /\
  tags (local w') !! "v0.1.2" = Some (length (objects w)).
Proof.
  apply (failed_push_leaves_commit_and_tag sample_env "v0.1.2" "v0.1.2: " _ 1).
  - vm_compute. reflexivity.
  - vm_compute. reflexivity.
Defined.

(** X8. A tag reaches origin only behind its commit: whatever way the
    transaction ends, a tag that origin has afterwards and did not have
    before is the release tag, and the branch that HEAD is on points to
    the tagged commit both locally and on origin. *)
Theorem pushed_tag_is_on_pushed_branch e TAG msg w r w' t c :
  transaction e TAG msg w = (r, w') ->
  o_tags (remote w') !! t = Some c ->
  o_tags (remote w) !! t = Some c \/
  (t = TAG /\ exists b, HEAD (local w') = OnBranch b /\
     o_heads (remote w') !! b = Some c /\ heads (local w') !! b = Some c).
Proof.
  unfold transaction, git_add, git_commit, git_tag, git_push, git_push_tag,
    bind, get, emit, modify, ret, exit.
  intros H Ht. run_inv_eq H; injection H as <- <-; cbn in Ht |- *; auto.
  all: destruct (decide (t = TAG)) as [->|Hne];
    [|rewrite lookup_insert_ne in Ht by done; by left].
  all: rewrite lookup_insert_eq in *; simplify_eq.
  all: right; split; [done|]; eexists; split; [done|]; by rewrite ?lookup_insert_eq.
Qed.

Lemma pushed_tag_is_on_pushed_branch_witness :
  let w := sample_world manifest_0_1_1 manifest_edited ∅ [] in
  let w' := snd (transaction sample_env "v0.1.2" "v0.1.2: " w) in
  o_tags (remote w) !! "v0.1.2" = Some 1 \/
  ("v0.1.2" = "v0.1.2" /\ exists b, HEAD (local w') = OnBranch b /\
     o_heads (remote w') !! b = Some 1 /\ heads (local w') !! b = Some 1).
Proof.
  apply (pushed_tag_is_on_pushed_branch sample_env "v0.1.2" "v0.1.2: "
           (sample_world manifest_0_1_1 manifest_edited ∅ []) (Done tt)).
  - vm_compute. reflexivity.
  - vm_compute. reflexivity.
Defined.

(** ** Containment, and the run that the discovery picks *)

(** X9. The discovery cannot tell a tag from a longer tag that contains
    it: every run that the query for the longer tag selects is selected
    for the shorter one too, so a listing headed by the run of v0.1.10
    gives that run's id to the monitor of v0.1.1. *)
Theorem discovery_takes_run_of_longer_tag tag longer :
  contains tag longer = true ->
  (forall runs r,
     In r (List.filter (fun r => contains longer (displayTitle r)) runs) ->
     In r (List.filter (fun r => contains tag (displayTitle r)) runs)) /\
  (forall id title rest,
     contains longer title = true ->
     query_run_id tag (Some (CiRun id title :: rest)) = id).
Proof.
  intros Hsub. split.
  - intros runs r. rewrite !filter_In. intros [Hin Hc].
    split; [done|]. by eapply contains_trans.
  - intros id title rest Hc. unfold query_run_id. cbn [List.filter displayTitle].
    by rewrite (contains_trans _ _ _ Hsub Hc).
Qed.

Lemma discovery_takes_run_of_longer_tag_witness :
  (forall runs r,
     In r (List.filter (fun r => contains "v0.1.10" (displayTitle r)) runs) ->
     In r (List.filter (fun r => contains "v0.1.1" (displayTitle r)) runs)) /\
  (forall id title rest,
     contains "v0.1.10" title = true ->
     query_run_id "v0.1.1" (Some (CiRun id title :: rest)) = id).
Proof. apply discovery_takes_run_of_longer_tag. reflexivity. Defined.

(** ** Reading and writing the manifest *)

Lemma sed_capture_quoted_last before g after :
  no_quote g = true -> no_quote after = true ->
  sed_capture_quoted (before +:+ quoted g +:+ after) = g.
Proof.
  unfold no_quote, sed_capture_quoted, quoted. intros Hg Ha.
  rewrite !string_rev_app.
  change (string_rev (str DQUOTE)) with (str DQUOTE).
  rewrite !append_assoc, !str_append.
  rewrite cut_app by by rewrite all_chars_rev.
  rewrite cut_app by by rewrite all_chars_rev.
  apply string_rev_involutive.
Qed.

(** X10. What [current_version] takes from a line is the text between its
    last two double quotes, whatever comes before them: quotes earlier on
    the line do not matter, and a quoted remark after the version would be
    taken in its place. *)
Theorem capture_is_last_quoted before g after :
  no_quote g = true -> no_quote after = true ->
  sed_capture_quoted (before +:+ quoted g +:+ after) = g.
Proof. apply sed_capture_quoted_last. Qed.

Lemma capture_is_last_quoted_witness :
  sed_capture_quoted
    ("version = " +:+ quoted "0.1.1" +:+ " # was " +:+ quoted "0.1.0" +:+
     EmptyString) = "0.1.0".
Proof.
  apply (capture_is_last_quoted ("version = " +:+ quoted "0.1.1" +:+ " # was ")
           "0.1.0" EmptyString); reflexivity.
Defined.

Lemma bre_match_self p r : bre_match p (p +:+ r) = Some r.
Proof.
  induction p as [|a p IH]; [by destruct r|].
  rewrite append_cons. simpl. by rewrite Ascii.eqb_refl, orb_true_r.
Qed.

Lemma bre_match_suffix p l r :
  bre_match p l = Some r -> exists m, l = m +:+ r.
Proof.
  revert l. induction p as [|a p IH]; intros l; simpl.
  - destruct l; intros [= <-]; by exists EmptyString.
  - destruct l as [|c l]; [done|].
    destruct (Ascii.eqb a DOT || Ascii.eqb a c); [|done].
    intros Hm. destruct (IH _ Hm) as [m ->]. by exists (String c m).
Qed.

(** A pattern that opens with ordinary characters matches only a line
    that starts with them. *)
Lemma bre_match_literal p1 p2 l r :
  all_chars (fun c => negb (Ascii.eqb c DOT)) p1 = true ->
  bre_match (p1 +:+ p2) l = Some r -> starts_with p1 l = true.
Proof.
  revert l. induction p1 as [|a p1 IH]; intros l; [done|].
  rewrite append_cons. simpl. rewrite andb_true_iff, negb_true_iff.
  intros [Ha Hp]. destruct l as [|c l]; [done|]. rewrite Ha. simpl.
  destruct (Ascii.eqb a c); [|done]. simpl. by apply IH.
Qed.

Lemma sed_version_line_other cur new l :
  starts_with ("version = " +:+ str DQUOTE) l = false ->
  sed_version_line cur new l = l.
Proof.
  intros Hl. unfold sed_version_line.
  destruct (bre_match (version_prefix cur) l) as [r|] eqn:E; [|done].
  change (bre_match (("version = " +:+ str DQUOTE) +:+ (cur +:+ str DQUOTE)) l =
          Some r) in E.
  apply bre_match_literal in E; [congruence|done].
Qed.

Lemma sed_version_line_no_newline cur new l :
  no_newline new = true -> no_newline l = true ->
  no_newline (sed_version_line cur new l) = true.
Proof.
  unfold no_newline, sed_version_line. intros Hn Hl.
  destruct (bre_match (version_prefix cur) l) as [r|] eqn:E; [|done].
  destruct (bre_match_suffix _ _ _ E) as [m ->].
  rewrite all_chars_app in Hl. apply andb_true_iff in Hl as [_ Hr].
  unfold version_prefix, quoted. by rewrite !all_chars_app, Hn, Hr.
Qed.

Lemma lines_sed_version cur new text :
  no_newline new = true ->
  lines (sed_version cur new text) = map (sed_version_line cur new) (lines text).
Proof.
  intros Hn. unfold sed_version. apply lines_unlines.
  - unfold lines. destruct (split_on_nonempty LF text) as (p & ps & ->). done.
  - apply Forall_forall. intros l Hl. apply list_elem_of_In, in_map_iff in Hl.
    destruct Hl as (l0 & <- & Hl0). apply sed_version_line_no_newline; [done|].
    pose proof (split_on_pieces_free LF text) as Hfree.
    rewrite Forall_forall in Hfree. by apply Hfree, list_elem_of_In.
Qed.

Lemma sed_ordinary_no_newline v :
  all_chars sed_ordinary v = true -> no_newline v = true.
Proof.
  unfold no_newline. apply all_chars_impl. intros c.
  unfold sed_ordinary. cbn [existsb].
  rewrite !negb_true_iff, !orb_false_iff. tauto.
Qed.

(** X11. For versions in which no character but the dot is special to
    [sed], the rewrite keeps the lines of the manifest in place and
    touches none that does not begin with [version = ] and a double
    quote: such a line comes out at the same position, as it was. *)
Theorem version_rewrite_keeps_other_lines cur new text :
  all_chars sed_ordinary cur = true -> all_chars sed_ordinary new = true ->
  length (lines (sed_version cur new text)) = length (lines text) /\
  forall i l,
    nth_error (lines text) i = Some l ->
    starts_with ("version = " +:+ str DQUOTE) l = false ->
    nth_error (lines (sed_version cur new text)) i = Some l.
Proof.
  intros _ Hn%sed_ordinary_no_newline.
  rewrite lines_sed_version by done. split; [apply length_map|].
  intros i l Hi Hl. rewrite <- (sed_version_line_other cur new l Hl).
  by apply map_nth_error.
Qed.

Lemma version_rewrite_keeps_other_lines_witness :
  length (lines (sed_version "0.1.1" "0.1.2" manifest_two_tables)) =
  length (lines manifest_two_tables) /\
  forall i l,
    nth_error (lines manifest_two_tables) i = Some l ->
    starts_with ("version = " +:+ str DQUOTE) l = false ->
    nth_error (lines (sed_version "0.1.1" "0.1.2" manifest_two_tables)) i = Some l.
Proof. apply version_rewrite_keeps_other_lines; reflexivity. Defined.

Lemma filter_no_version pre f :
  Forall (fun l => starts_with "version" l = false) pre ->
  (forall l, starts_with "version" l = false -> f l = l) ->
  List.filter (starts_with "version") (map f pre) = [].
Proof.
  intros Hpre Hf. induction Hpre as [|l pre Hl _ IH]; [done|].
  cbn [map List.filter]. by rewrite (Hf l Hl), Hl.
Qed.

(** Decides a test against the block of a pipe by the bounds at hand. *)
Ltac one_block :=
  match goal with
  | |- context [Z.leb ?x PIPE_BLOCK] =>
      destruct (Z.leb_spec x PIPE_BLOCK) as [_|?]; [|lia]
  end.

(** X12. Write, then read. Let no character but the dot be special to
    [sed] in the two versions, and let the first line of the manifest that
    begins with "version" be [version = "CUR"] followed by text without a
    double quote. Then the version read back after the rewrite to NEW,
    from a manifest that is read at once, is NEW. *)
Theorem version_write_then_read cur new text pre rest post :
  all_chars sed_ordinary cur = true -> all_chars sed_ordinary new = true ->
  lines text = (pre ++ (version_prefix cur +:+ rest) :: post)%list ->
  Forall (fun l => starts_with "version" l = false) pre ->
  no_quote rest = true -> no_quote new = true ->
  read_at_once (sed_version cur new text) ->
  current_version (Some (sed_version cur new text)) = Done new.
Proof.
  intros _ Hn%sed_ordinary_no_newline Hlines Hpre Hrest Hq [Hascii Hfit].
  assert (Hfilter :
            List.filter (starts_with "version") (lines (sed_version cur new text)) =
            (version_prefix new +:+ rest) ::
            List.filter (starts_with "version")
              (map (sed_version_line cur new) post)).
  { rewrite lines_sed_version, Hlines, map_app, List.filter_app by done.
    rewrite filter_no_version; [|done|].
    - cbn [map app]. unfold sed_version_line at 1. rewrite bre_match_self.
      by change (starts_with "version" (version_prefix new +:+ rest)) with true.
    - intros l Hl. apply sed_version_line_other.
      destruct (starts_with ("version = " +:+ str DQUOTE) l) eqn:E; [|done].
      apply (starts_with_app_l "version") in E. congruence. }
  unfold current_version. rewrite Hfilter in *. rewrite Hascii. cbn [negb].
  unfold writer_fate. one_block.
  f_equal. unfold version_prefix.
  rewrite append_assoc. by apply sed_capture_quoted_last.
Qed.

Lemma version_write_then_read_witness :
  current_version (Some (sed_version "0.1.1" "0.1.2" manifest_0_1_1)) =
  Done "0.1.2".
Proof.
  apply (version_write_then_read "0.1.1" "0.1.2" manifest_0_1_1
           ["[package]"; "name = " +:+ quoted "shelldeck"] EmptyString
           [EmptyString]).
  - reflexivity.
  - reflexivity.
  - vm_compute. reflexivity.
  - repeat constructor.
  - reflexivity.
  - reflexivity.
  - split; [reflexivity|]. vm_compute. discriminate.
Defined.

(** X13. Only the first version line is read: text added after a manifest
    that has a version line does not change the version that is read, as
    long as the longer manifest is read at once. *)
Theorem current_version_reads_first_line text more v :
  current_version (Some text) = Done v ->
  read_at_once (text +:+ nl +:+ more) ->
  current_version (Some (text +:+ nl +:+ more)) = Done v.
Proof.
  intros Hv [Hascii Hfit]. unfold current_version in *.
  rewrite Hascii. rewrite lines_app, List.filter_app in *.
  destruct (List.filter (starts_with "version") (lines text)) as [|l rest];
    [done|].
  cbn [app negb] in *. unfold writer_fate at 1. one_block.
  by repeat case_match.
Qed.

Lemma current_version_reads_first_line_witness :
  current_version
    (Some (manifest_0_1_1 +:+ nl +:+ "version = " +:+ quoted "9.9.9")) =
  Done "0.1.1".
Proof.
  apply (current_version_reads_first_line manifest_0_1_1
           ("version = " +:+ quoted "9.9.9") "0.1.1").
  - vm_compute. reflexivity.
  - split; [reflexivity|]. vm_compute. discriminate.
Defined.

(** A manifest with 8000 version lines after the first is not read: the
    release ends at the read with status 141, whatever the first line
    says. *)
Example current_version_of_long_manifest :
  let text := manifest_0_1_1 +:+
              unlines (repeat ("version = " +:+ quoted "0.1.1") (80 * 100)) in
  all_chars text_byte text = true /\
  current_version (Some text) = Exit 141.
Proof. split; vm_compute; reflexivity. Qed.

(** ** Numerals with a leading zero *)

Lemma read_ifs_dot_dotted M N P :
  all_chars (fun c => negb (Ascii.eqb c DOT)) M = true ->
  all_chars (fun c => negb (Ascii.eqb c DOT)) N = true ->
  all_chars (fun c => negb (Ascii.eqb c DOT)) P = true ->
  read_ifs_dot (dotted M N P) = (M, N, P).
Proof.
  intros HM HN HP. unfold read_ifs_dot, dotted.
  change (M +:+ "." +:+ N +:+ "." +:+ P)
    with (M +:+ String DOT (N +:+ String DOT P)).
  rewrite (cut_app _ _ _ HM), (cut_app _ _ _ HN).
  unfold last_field. by rewrite (cut_none _ _ HP).
Qed.

Lemma strlong_loop_bad_digit base acc a d b :
  (digit_val d <? base)%Z = false ->
  strlong_loop base acc (a +:+ String d b) = None.
Proof.
  intros Hd. revert acc. induction a as [|c a IH]; intros acc.
  - simpl. by rewrite Hd, andb_false_r.
  - rewrite append_cons. simpl.
    destruct (is_digit c && (digit_val c <? base)%Z); [apply IH|done].
Qed.

(** X14. A patch component written with a leading zero and an 8 or a 9
    is not bumped: the shell reads it as an octal numeral, the arithmetic
    fails, the [case] command is abandoned, and the script goes on with
    the current version as the new one. The version is one line, with
    no dot inside its first two components. *)
Theorem leading_zero_component_is_not_bumped M N a d b :
  all_chars (fun c => negb (Ascii.eqb c DOT)) M = true ->
  all_chars (fun c => negb (Ascii.eqb c DOT)) N = true ->
  no_newline M = true -> no_newline N = true ->
  all_chars is_digit a = true -> all_chars is_digit b = true ->
  d = "8"%char \/ d = "9"%char ->
  bump patch (dotted M N (String "0" (a +:+ String d b))) =
  Done (dotted M N (String "0" (a +:+ String d b))).
Proof.
  intros HM HN _ _ Ha Hb Hd.
  assert (Hdd : is_digit d = true) by (by destruct Hd as [-> | ->]).
  assert (Hbad : (digit_val d <? 8)%Z = false) by (by destruct Hd as [-> | ->]).
  assert (Hall : all_chars is_digit (String "0" (a +:+ String d b)) = true).
  { simpl. rewrite all_chars_app. simpl. by rewrite Ha, Hdd, Hb. }
  unfold bump. rewrite read_ifs_dot_dotted; [|done..|].
  - unfold arith_succ, arith_var. rewrite Hall. unfold strlong.
    rewrite Ascii.eqb_refl, strlong_loop_bad_digit by done.
    by destruct a.
  - by apply (all_chars_impl is_digit); [apply digit_not_dot|].
Qed.

Lemma leading_zero_component_is_not_bumped_witness :
  bump patch (dotted "1" "2" (String "0" (EmptyString +:+ String "8" EmptyString))) =
  Done (dotted "1" "2" (String "0" (EmptyString +:+ String "8" EmptyString))).
Proof. apply leading_zero_component_is_not_bumped; (reflexivity || by left). Defined.

(** What follows: the tag is that of the current version, and on a clean
    clone the release ends at [git commit], which has nothing to commit,
    after the prompts. *)
Example release_of_1_2_08 :
  let m := manifest_with ("version = " +:+ quoted "1.2.08") in
  let run := release sample_env patch
               (sample_world m m ∅ [EmptyString; EmptyString]) in
  fst run = Exit 1 /\
  trace (snd run) =
    [GitFetchTags; GitFetch; SedVersion "1.2.08" "1.2.08"; CargoCheck;
     GitAdd [CARGO_TOML; CARGO_LOCK]; GitCommit "v1.2.08: "].
Proof. split; by vm_compute. Qed.

(** ** Elapsed time *)

Local Open Scope Z_scope.

Lemma show_nat_inj a b :
  0 <= a < 2 ^ 63 -> 0 <= b < 2 ^ 63 -> show_nat a = show_nat b -> a = b.
Proof.
  intros Ha Hb Heq.
  destruct (show_nat_numeral a Ha) as (_ & Hla & _).
  destruct (show_nat_numeral b Hb) as (_ & Hlb & _).
  rewrite Heq in Hla. congruence.
Qed.

Lemma digit_not_letter x c :
  is_digit x = false -> is_digit c = true -> negb (Ascii.eqb c x) = true.
Proof.
  intros Hx Hc. rewrite negb_true_iff. apply Ascii.eqb_neq. intros ->. congruence.
Qed.

Lemma show_nat_without x n :
  is_digit x = false -> 0 <= n ->
  all_chars (fun c => negb (Ascii.eqb c x)) (show_nat n) = true.
Proof.
  intros Hx Hn. apply (all_chars_impl is_digit); [|by apply show_nat_digits].
  intros c. by apply digit_not_letter.
Qed.

Lemma fmt_duration_seconds a :
  0 <= a < 60 -> fmt_duration a = show_nat a +:+ "s".
Proof.
  intros Ha. unfold fmt_duration. rewrite wrap64_small by lia. cbn zeta.
  destruct (Z.ltb_spec a 60); [|lia].
  by rewrite show_Z_nonneg by lia.
Qed.

Lemma fmt_duration_minutes a :
  60 <= a < 3600 ->
  fmt_duration a = show_nat (a / 60) +:+ "m " +:+ show_nat (a mod 60) +:+ "s".
Proof.
  intros Ha. unfold fmt_duration. rewrite wrap64_small by lia. cbn zeta.
  destruct (Z.ltb_spec a 60); [lia|]. destruct (Z.ltb_spec a 3600); [|lia].
  rewrite Z.quot_div_nonneg, Z.rem_mod_nonneg by lia.
  rewrite !show_Z_nonneg; [done|..].
  - apply Z.mod_pos_bound. lia.
  - apply Z.div_pos; lia.
Qed.

Lemma seconds_inj a b :
  0 <= a < 2 ^ 63 -> 0 <= b < 2 ^ 63 ->
  show_nat a +:+ "s" = show_nat b +:+ "s" -> a = b.
Proof.
  intros Ha Hb Heq. apply (f_equal (cut "s")) in Heq.
  change (?x +:+ "s") with (x +:+ String "s" EmptyString) in Heq.
  rewrite !cut_app in Heq by (apply show_nat_without; [done|lia]).
  injection Heq as Heq. by apply show_nat_inj.
Qed.

(** X15. Below one hour the elapsed time is shown without loss: two
    different durations never print the same text. *)
Theorem fmt_duration_injective a b :
  0 <= a < 3600 -> 0 <= b < 3600 -> fmt_duration a = fmt_duration b -> a = b.
Proof.
  intros Ha Hb.
  destruct (Z.lt_ge_cases a 60) as [Ha60|Ha60],
           (Z.lt_ge_cases b 60) as [Hb60|Hb60].
  - rewrite !fmt_duration_seconds by lia. apply seconds_inj; lia.
  - rewrite (fmt_duration_seconds a), (fmt_duration_minutes b) by lia.
    intros Heq. apply (f_equal (cut "m")) in Heq.
    change (?x +:+ "m " +:+ ?y) with (x +:+ String "m" (" " +:+ y)) in Heq.
    rewrite cut_app in Heq by (apply show_nat_without; [done|apply Z.div_pos; lia]).
    rewrite cut_none in Heq; [done|].
    rewrite all_chars_app. by rewrite show_nat_without by (done || lia).
  - rewrite (fmt_duration_seconds b), (fmt_duration_minutes a) by lia.
    intros Heq. apply (f_equal (cut "m")) in Heq.
    change (?x +:+ "m " +:+ ?y) with (x +:+ String "m" (" " +:+ y)) in Heq.
    rewrite cut_app in Heq by (apply show_nat_without; [done|apply Z.div_pos; lia]).
    rewrite cut_none in Heq; [done|].
    rewrite all_chars_app. by rewrite show_nat_without by (done || lia).
  - rewrite !fmt_duration_minutes by lia.
    intros Heq. apply (f_equal (cut "m")) in Heq.
    change (?x +:+ "m " +:+ ?y) with (x +:+ String "m" (" " +:+ y)) in Heq.
    rewrite !cut_app in Heq
      by (apply show_nat_without; [done|apply Z.div_pos; lia]).
    injection Heq as Hm Hs.
    assert (Hma : 0 <= a / 60 < 60)
      by (split; [apply Z.div_pos; lia|apply Z.div_lt_upper_bound; lia]).
    assert (Hmb : 0 <= b / 60 < 60)
      by (split; [apply Z.div_pos; lia|apply Z.div_lt_upper_bound; lia]).
    pose proof (Z.mod_pos_bound a 60 ltac:(lia)) as Hsa.
    pose proof (Z.mod_pos_bound b 60 ltac:(lia)) as Hsb.
    apply show_nat_inj in Hm; [|lia..].
    apply seconds_inj in Hs; [|lia..].
    rewrite (Z.div_mod a 60), (Z.div_mod b 60) by lia. by rewrite Hm, Hs.
Qed.

Lemma fmt_duration_injective_witness : 75 = 75.
Proof. apply fmt_duration_injective; [lia|lia|reflexivity]. Defined.

(** X16. From one hour on, and below 2^63 seconds, where the shell's
    arithmetic reads the number as it is written, the seconds are dropped:
    two durations that lie in the same minute print the same text. *)
Theorem fmt_duration_hours_drop_seconds a b :
  3600 <= a < 2 ^ 63 -> 3600 <= b < 2 ^ 63 -> a / 60 = b / 60 ->
  fmt_duration a = fmt_duration b.
Proof.
  intros Ha Hb Hm. unfold fmt_duration. rewrite !wrap64_small by lia. cbn zeta.
  destruct (Z.ltb_spec a 60); [lia|]. destruct (Z.ltb_spec a 3600); [lia|].
  destruct (Z.ltb_spec b 60); [lia|]. destruct (Z.ltb_spec b 3600); [lia|].
  rewrite !Z.rem_mod_nonneg by lia.
  pose proof (Z.mod_pos_bound a 3600 ltac:(lia)).
  pose proof (Z.mod_pos_bound b 3600 ltac:(lia)).
  rewrite !Z.quot_div_nonneg by lia.
  assert (Hh : a / 3600 = b / 3600).
  { change 3600 with (60 * 60). by rewrite <- !Z.div_div, Hm by lia. }
  assert (Hmin : forall x, x mod 3600 / 60 = (x / 60) mod 60).
  { intros x. change 3600 with (60 * 60).
    rewrite Z.rem_mul_r by lia.
    rewrite (Z.mul_comm 60), Z.div_add by lia.
    rewrite (Z.div_small (x mod 60)) by (apply Z.mod_pos_bound; lia). lia. }
  by rewrite Hh, !Hmin, Hm.
Qed.

Lemma fmt_duration_hours_drop_seconds_witness :
  fmt_duration 3600 = fmt_duration 3659.
Proof. apply fmt_duration_hours_drop_seconds; [lia|lia|reflexivity]. Defined.

(** At 2^63 seconds the number wraps to a negative one, which is below 60:
    the first branch prints the argument, and two durations of the same
    minute differ. *)
Example fmt_duration_wraps :
  fmt_duration (2 ^ 63) = "9223372036854775808s" /\
  fmt_duration (2 ^ 63 + 1) = "9223372036854775809s" /\
  2 ^ 63 / 60 = (2 ^ 63 + 1) / 60.
Proof. repeat split; by vm_compute. Qed.

Local Close Scope Z_scope.

(** ** The arguments *)

Lemma option_word_not_empty t : option_word t = true -> String.eqb t EmptyString = false.
Proof. by destruct t. Qed.

Lemma parse_loop_option_words n :
  forall argv st,
    length argv <= n -> forallb option_word argv = true ->
    exists st', parse_loop st argv = Done st'.
Proof.
  induction n as [|n IH]; intros argv st Hlen Hall.
  - destruct argv; [by eexists|simpl in Hlen; lia].
  - destruct argv as [|a rest]; [by eexists|].
    simpl in Hlen. cbn [forallb] in Hall. apply andb_true_iff in Hall as [Ha Hrest].
    cbn [parse_loop].
    destruct (String.eqb a "--status") eqn:E1; [apply IH; [lia|done]|].
    destruct (String.eqb a "--monitor" || String.eqb a "--check") eqn:E2.
    { destruct rest as [|t rest']; [by eexists|].
      cbn [forallb] in Hrest. apply andb_true_iff in Hrest as [Ht Hrest'].
      rewrite (option_word_not_empty t Ht). apply IH; [simpl in Hlen; lia|done]. }
    destruct (String.eqb a "--no-monitor") eqn:E3; [apply IH; [lia|done]|].
    apply orb_false_iff in E2 as [E2 E2'].
    unfold option_word in Ha. cbn [existsb] in Ha.
    rewrite E1, E2, E2', E3 in Ha. cbn [orb] in Ha.
    destruct (String.eqb a "--help" || String.eqb a "-h") eqn:E4.
    { apply orb_true_iff in E4 as [E4|E4]; apply String.eqb_eq in E4; by subst. }
    unfold bump_word.
    destruct (String.eqb a "patch"); [apply IH; [lia|done]|].
    destruct (String.eqb a "minor"); [apply IH; [lia|done]|].
    destruct (String.eqb a "major"); [apply IH; [lia|done]|]. done.
Qed.

(** X17. The option words of the usage text are never rejected: any
    sequence of [--status], [--monitor], [--check], [--no-monitor],
    [patch], [minor] and [major] parses, whatever their order. *)
Theorem parse_accepts_option_words argv :
  forallb option_word argv = true -> exists st, parse_args argv = Done st.
Proof.
  intros Hall. unfold parse_args.
  destruct (parse_loop_option_words (length argv) argv
              (Args false NoCommand EmptyString None)) as [st' ->]; [lia|done|].
  by eexists.
Qed.

Lemma parse_accepts_option_words_witness :
  exists st, parse_args ["minor"; "--no-monitor"; "--check"; "--status"] = Done st.
Proof. apply parse_accepts_option_words. reflexivity. Defined.

Lemma parse_loop_exit n :
  forall argv st code,
    length argv <= n -> parse_loop st argv = Exit code ->
    code = 1 \/ (code = 0 /\ (In "--help" argv \/ In "-h" argv)).
Proof.
  induction n as [|n IH]; intros argv st code Hlen Hrun.
  - destruct argv; [done|simpl in Hlen; lia].
  - destruct argv as [|a rest]; [done|].
    simpl in Hlen. cbn [parse_loop] in Hrun.
    assert (Hmore : forall st' argv',
              length argv' <= n -> (forall x, In x argv' -> In x (a :: rest)) ->
              parse_loop st' argv' = Exit code ->
              code = 1 \/ (code = 0 /\ (In "--help" (a :: rest) \/ In "-h" (a :: rest)))).
    { intros st' argv' Hl Hsub Hr.
      destruct (IH _ _ _ Hl Hr) as [?|[? [?|?]]]; [by left|right..]; auto. }
    destruct (String.eqb a "--status");
      [eapply Hmore; [|by right|done]; lia|].
    destruct (String.eqb a "--monitor" || String.eqb a "--check").
    { destruct rest as [|t rest']; [done|].
      destruct (String.eqb t EmptyString).
      - eapply Hmore; [|by right|done]. simpl in *; lia.
      - eapply Hmore; [|by right; right|done]. simpl in *; lia. }
    destruct (String.eqb a "--no-monitor");
      [eapply Hmore; [|by right|done]; lia|].
    destruct (String.eqb a "--help" || String.eqb a "-h") eqn:E4.
    { injection Hrun as <-. right. split; [done|].
      apply orb_true_iff in E4 as [E4|E4]; apply String.eqb_eq in E4; subst;
        [left|right]; by left. }
    destruct (bump_word a).
    + eapply Hmore; [|by right|done]. lia.
    + injection Hrun as <-. by left.
Qed.

(** X18. The parser ends the script in two ways only: with status 0,
    and then [--help] or [-h] is among the arguments, or with status 1. *)
Theorem parse_exit_status argv code :
  parse_args argv = Exit code ->
  code = 1 \/ (code = 0 /\ (In "--help" argv \/ In "-h" argv)).
Proof.
  unfold parse_args.
  destruct (parse_loop _ argv) as [st| |] eqn:E; [done| |done].
  intros [= <-]. by eapply parse_loop_exit.
Qed.

Lemma parse_exit_status_witness :
  0 = 1 \/ (0 = 0 /\ (In "--help" ["major"; "--help"] \/ In "-h" ["major"; "--help"])).
Proof. apply parse_exit_status. reflexivity. Defined.

Lemma parse_loop_bump_words kinds k st :
  parse_loop st (map bump_name kinds ++ [bump_name k]) =
  Done (Args (NO_MONITOR st) Release (CMD_ARG st) (Some k)).
Proof.
  revert st. induction kinds as [|x kinds IH]; intros st.
  - by destruct k.
  - cbn [map app]. destruct x; cbn; by rewrite IH.
Qed.

(** X19. Of several bump kinds on the command line the last one counts:
    the command is the release, with that kind. *)
Theorem parse_last_bump_wins kinds k :
  parse_args (map bump_name (kinds ++ [k])) =
  Done (Args false Release EmptyString (Some k)).
Proof.
  unfold parse_args. by rewrite map_app, (parse_loop_bump_words kinds k).
Qed.

(** ** Watching the run *)

Lemma headers_app l1 l2 : headers (l1 ++ l2) = (headers l1 ++ headers l2)%list.
Proof. apply flat_map_app. Qed.

Lemma waited_app l1 l2 : waited (l1 ++ l2) = (waited l1 ++ waited l2)%list.
Proof. apply flat_map_app. Qed.

Lemma views_made_app l1 l2 :
  views_made (l1 ++ l2) = views_made l1 + views_made l2.
Proof. unfold views_made. by rewrite List.filter_app, length_app. Qed.

(** The rows of the jobs are neither headers, nor waits, nor views. *)
Lemma job_rows_only_rows text :
  headers (job_rows text) = [] /\ waited (job_rows text) = [] /\
  views_made (job_rows text) = 0.
Proof.
  unfold job_rows. destruct (String.eqb text EmptyString); [done|].
  induction (lines text) as [|l ls (Hh & Hw & Hv)]; [done|].
  cbn [map]. destruct (read_ifs BAR l) as [[name jstatus] jconclusion].
  by repeat split.
Qed.

Lemma poll_out_only_view header text :
  (header = [] \/ exists s t, header = [Header s t]) ->
  waited (RunView :: header ++ job_rows text) = [] /\
  views_made (RunView :: header ++ job_rows text) = 1.
Proof.
  destruct (job_rows_only_rows text) as (_ & Hw & Hv).
  intros [->|(s & t & ->)]; cbn [app].
  - change (RunView :: job_rows text) with ([RunView] ++ job_rows text)%list.
    by rewrite waited_app, views_made_app, Hw, Hv.
  - change (RunView :: Header s t :: job_rows text)
      with ([RunView; Header s t] ++ job_rows text)%list.
    by rewrite waited_app, views_made_app, Hw, Hv.
Qed.

(** The rounds before the first completed view: each makes one view and
    waits 15 seconds. *)
Lemma poll_through k :
  forall fuel views clock n prev,
    (forall j, j < k ->
       exists s, views (n + j) = Some s /\
                 String.eqb (run_status s) "completed" = false) ->
    exists evs0 prev',
      poll (k + fuel) views clock n prev =
        (fst (poll fuel views clock (n + k) prev'),
         (evs0 ++ snd (poll fuel views clock (n + k) prev'))%list) /\
      waited evs0 = repeat 15 k /\ views_made evs0 = k.
Proof.
  induction k as [|k IH]; intros fuel views clock n prev Hbefore.
  - exists [], prev. rewrite Nat.add_0_r. cbn [Nat.add app].
    by destruct (poll fuel views clock n prev).
  - destruct (Hbefore 0) as (s & Hs & Hrun); [lia|]. rewrite Nat.add_0_r in Hs.
    destruct (IH fuel views clock (n + 1) (run_status s))
      as (evs0 & prev' & Hpoll & Hw & Hv).
    { intros j Hj. destruct (Hbefore (S j)) as (s' & Hs' & Hr'); [lia|].
      exists s'. split; [|done]. by replace (n + 1 + j) with (n + S j) by lia. }
    replace (n + 1 + k) with (n + S k) in Hpoll by lia.
    cbn [Nat.add poll]. rewrite Hs, Hrun, Hpoll. cbn [fst snd].
    set (header := if String.eqb (run_status s) prev then []
                   else [Header (run_status s) (fmt_duration (clock n))]).
    exists ((RunView :: header ++ job_rows (jobs_text s)) ++ Wait 15 :: evs0)%list,
      prev'.
    destruct (poll_out_only_view header (jobs_text s)) as [Hw0 Hv0].
    { subst header. destruct (String.eqb _ prev); [by left|right; by eexists _, _]. }
    split; [by rewrite <- app_assoc|].
    rewrite waited_app, views_made_app, Hw0, Hv0.
    change (Wait 15 :: evs0) with ([Wait 15] ++ evs0)%list.
    rewrite waited_app, views_made_app, Hw, Hv. done.
Qed.

(** X20. The monitor ends at the first view that shows the run as
    completed, provided the views before it succeed: it has then looked
    once per round, waited 15 seconds after each earlier round, and it
    reports success exactly when the conclusion is "success". *)
Theorem poll_ends_at_first_completed views clock k snap extra :
  views k = Some snap ->
  run_status snap = "completed" ->
  (forall j, j < k ->
     exists s, views j = Some s /\ String.eqb (run_status s) "completed" = false) ->
  fst (poll (S k + extra) views clock 0 EmptyString) =
    (if String.eqb (run_conclusion snap) "success" then CiSucceeded
     else CiFailed (run_conclusion snap)) /\
  waited (snd (poll (S k + extra) views clock 0 EmptyString)) = repeat 15 k /\
  views_made (snd (poll (S k + extra) views clock 0 EmptyString)) = S k.
Proof.
  intros Hk Hdone Hbefore.
  destruct (poll_through k (S extra) views clock 0 EmptyString)
    as (evs0 & prev' & Hpoll & Hw & Hv); [done|].
  replace (S k + extra) with (k + S extra) by lia. rewrite Hpoll.
  cbn [Nat.add poll fst snd]. rewrite Hk, Hdone.
  set (header := if String.eqb "completed" prev' then []
                 else [Header "completed" (fmt_duration (clock k))]).
  destruct (poll_out_only_view header (jobs_text snap)) as [Hw0 Hv0].
  { subst header. destruct (String.eqb _ prev'); [by left|right; by eexists _, _]. }
  change (String.eqb "completed" "completed") with true. cbn iota.
  destruct (String.eqb (run_conclusion snap) "success"); cbn [fst snd];
    rewrite waited_app, views_made_app, Hw, Hv, Hw0, Hv0, app_nil_r;
    (split; [done|split; [done|lia]]).
Qed.

Lemma poll_ends_at_first_completed_witness :
  fst (poll (S 1 + 0)
         (fun n => if Nat.eqb n 0 then Some (Snapshot "queued" EmptyString [])
                   else Some (Snapshot "completed" "success" []))
         (fun n => 0%Z) 0 EmptyString) =
    (if String.eqb (run_conclusion (Snapshot "completed" "success" [])) "success"
     then CiSucceeded
     else CiFailed (run_conclusion (Snapshot "completed" "success" []))) /\
  waited (snd (poll (S 1 + 0)
         (fun n => if Nat.eqb n 0 then Some (Snapshot "queued" EmptyString [])
                   else Some (Snapshot "completed" "success" []))
         (fun n => 0%Z) 0 EmptyString)) = repeat 15 1 /\
  views_made (snd (poll (S 1 + 0)
         (fun n => if Nat.eqb n 0 then Some (Snapshot "queued" EmptyString [])
                   else Some (Snapshot "completed" "success" []))
         (fun n => 0%Z) 0 EmptyString)) = S 1.
Proof.
  apply poll_ends_at_first_completed.
  - reflexivity.
  - reflexivity.
  - intros j Hj. exists (Snapshot "queued" EmptyString []).
    destruct j; [split; reflexivity|lia].
Defined.

(** X21. A view that fails is not tried again: when [gh run view] fails
    before the run is seen completed, the monitor ends there, after one
    look per round and 15 seconds of wait for each earlier round. *)
Theorem poll_stops_at_failed_view views clock k extra :
  views k = None ->
  (forall j, j < k ->
     exists s, views j = Some s /\ String.eqb (run_status s) "completed" = false) ->
  poll (S k + extra) views clock 0 EmptyString =
    (ViewFailed, snd (poll (S k + extra) views clock 0 EmptyString)) /\
  waited (snd (poll (S k + extra) views clock 0 EmptyString)) = repeat 15 k /\
  views_made (snd (poll (S k + extra) views clock 0 EmptyString)) = S k.
Proof.
  intros Hk Hbefore.
  destruct (poll_through k (S extra) views clock 0 EmptyString)
    as (evs0 & prev' & Hpoll & Hw & Hv); [done|].
  replace (S k + extra) with (k + S extra) by lia. rewrite Hpoll.
  cbn [Nat.add poll fst snd]. rewrite Hk. cbn [fst snd].
  rewrite waited_app, views_made_app, Hw, Hv. cbn.
  rewrite app_nil_r. split; [done|split; [done|lia]].
Qed.

Lemma poll_stops_at_failed_view_witness :
  poll (S 0 + 3) (fun _ => None) (fun _ => 0%Z) 0 EmptyString =
    (ViewFailed, snd (poll (S 0 + 3) (fun _ => None) (fun _ => 0%Z) 0 EmptyString)) /\
  waited (snd (poll (S 0 + 3) (fun _ => None) (fun _ => 0%Z) 0 EmptyString)) =
    repeat 15 0 /\
  views_made (snd (poll (S 0 + 3) (fun _ => None) (fun _ => 0%Z) 0 EmptyString)) =
    S 0.
Proof.
  apply poll_stops_at_failed_view; [reflexivity|]. intros j Hj. lia.
Defined.

(** X22. The status header is printed only when the status changes: in
    the output of the monitor no two successive headers carry the same
    status, and the first one is not the empty status it starts from. *)
Theorem headers_never_repeat fuel views clock n prev :
  no_repeat prev (headers (snd (poll fuel views clock n prev))).
Proof.
  revert n prev. induction fuel as [|fuel IH]; intros n prev; [done|].
  cbn [poll]. destruct (views n) as [snap|]; [|done].
  destruct (job_rows_only_rows (jobs_text snap)) as (Hrows & _ & _).
  assert (Hout : forall rest,
            no_repeat (run_status snap) (headers rest) ->
            no_repeat prev
              (headers ((RunView ::
                  (if String.eqb (run_status snap) prev then []
                   else [Header (run_status snap) (fmt_duration (clock n))]) ++
                  job_rows (jobs_text snap)) ++ rest))).
  { intros rest Hrest.
    destruct (String.eqb_spec (run_status snap) prev) as [<-|Hne].
    - change (RunView :: [] ++ job_rows (jobs_text snap))
        with ([RunView] ++ job_rows (jobs_text snap))%list.
      by rewrite !headers_app, Hrows.
    - change (RunView :: [Header (run_status snap) (fmt_duration (clock n))] ++
                job_rows (jobs_text snap))
        with ([RunView; Header (run_status snap) (fmt_duration (clock n))] ++
                job_rows (jobs_text snap))%list.
      rewrite !headers_app, Hrows. by split. }
  destruct (String.eqb (run_status snap) "completed").
  - destruct (String.eqb (run_conclusion snap) "success"); cbn [snd];
      rewrite <- (app_nil_r (RunView :: _)); by apply Hout.
  - specialize (IH (n + 1) (run_status snap)).
    destruct (poll fuel views clock (n + 1) (run_status snap)) as [r evs].
    cbn [snd] in *. apply Hout.
    change (Wait 15 :: evs) with ([Wait 15] ++ evs)%list. by rewrite headers_app.
Qed.

(** ** The rows of the jobs *)

Lemma read_ifs_job_line j :
  job_clean j = true ->
  read_ifs BAR (job_line j) = (job_name j, job_status j, job_conclusion j).
Proof.
  unfold job_clean, plain_field, no_bar, job_line, read_ifs.
  rewrite !andb_true_iff. intros [[[Hn _] [Hs _]] [Hc _]].
  rewrite !str_append.
  by rewrite (cut_app BAR _ _ Hn), (cut_app BAR _ _ Hs), (cut_none BAR _ Hc).
Qed.

Lemma job_line_no_newline j :
  job_clean j = true -> no_newline (job_line j) = true.
Proof.
  unfold job_clean, plain_field, no_newline, job_line.
  rewrite !andb_true_iff. intros [[[_ Hn] [_ Hs]] [_ Hc]].
  rewrite !all_chars_app, Hn, Hs, Hc. reflexivity.
Qed.

Lemma job_line_not_empty j : job_line j <> EmptyString.
Proof.
  unfold job_line. rewrite str_append. by destruct (job_name j).
Qed.

Lemma rows_of_job_lines js :
  forallb job_clean js = true ->
  map (fun l => let '(name, jstatus, jconclusion) := read_ifs BAR l in
                JobRow (job_icon jstatus jconclusion) name jstatus jconclusion)
      (map job_line js) = map row_of js.
Proof.
  induction js as [|j js IH]; cbn [map forallb]; [done|].
  rewrite andb_true_iff. intros [Hj Hjs].
  by rewrite (read_ifs_job_line _ Hj), (IH Hjs).
Qed.

(** X23. The text that [jq] prints for the jobs and the loop that reads it
    back agree: when no field of a job holds a bar or a newline, the
    monitor prints one row for each job, in order, with the job's own name,
    status and conclusion. *)
Theorem job_rows_of_clean_jobs snap :
  forallb job_clean (run_jobs snap) = true ->
  job_rows (jobs_text snap) = map row_of (run_jobs snap).
Proof.
  unfold job_rows, jobs_text. intros Hall.
  destruct (run_jobs snap) as [|j js] eqn:Hjobs; [done|].
  assert (Hlines : lines (unlines (map job_line (j :: js))) = map job_line (j :: js)).
  { apply lines_unlines; [done|].
    apply List.Forall_forall. intros l [j' [<- Hin]]%in_map_iff.
    apply job_line_no_newline.
    by apply (proj1 (forallb_forall job_clean (j :: js)) Hall). }
  destruct (String.eqb_spec (unlines (map job_line (j :: js))) EmptyString)
    as [Hempty|_].
  - rewrite Hempty in Hlines. injection Hlines as Hline _.
    by destruct (job_line_not_empty j).
  - rewrite Hlines. by apply rows_of_job_lines.
Qed.

Lemma job_rows_of_clean_jobs_witness :
  job_rows (jobs_text
    (Snapshot "in_progress" EmptyString
       [Job "build (linux)" "completed" "success"; Job "package" "queued" "null"])) =
  map row_of
    (run_jobs (Snapshot "in_progress" EmptyString
       [Job "build (linux)" "completed" "success"; Job "package" "queued" "null"])).
Proof.
  apply job_rows_of_clean_jobs. reflexivity.
Defined.

(** ** The monitor as a whole *)

Lemma cmd_check_with_Exit expected c arg code :
  cmd_check_with expected c arg = Exit code -> code = 1.
Proof.
  unfold cmd_check_with. destruct (gh_ready c); cbn [negb]; [|by intros [= <-]].
  destruct (String.eqb _ EmptyString); [by intros [= <-]|].
  destruct (release_view c _) as [[is_draft assets]|]; [|by intros [= <-]].
  destruct (echo_option assets); [done|].
  by destruct (scan_expected expected assets (0, 0, [], true))
    as [[[[f m] names] ok]|].
Qed.

(** Success is reported only for a view that showed the run completed
    with the conclusion "success". *)
Lemma poll_success_seen fuel :
  forall views clock n prev,
    fst (poll fuel views clock n prev) = CiSucceeded ->
    exists k snap, views k = Some snap /\
      run_status snap = "completed" /\ run_conclusion snap = "success".
Proof.
  induction fuel as [|fuel IH]; intros views clock n prev; [done|].
  cbn [poll]. destruct (views n) as [snap|] eqn:Hview; [|done].
  destruct (String.eqb_spec (run_status snap) "completed") as [Hs|_].
  - destruct (String.eqb_spec (run_conclusion snap) "success") as [Hc|_]; [|done].
    intros _. by exists n, snap.
  - specialize (IH views clock (n + 1) (run_status snap)).
    destruct (poll fuel views clock (n + 1) (run_status snap)) as [r evs].
    cbn [fst] in *. done.
Qed.

(** X24. The monitor ends with status 0 only for a verified release: [gh]
    is usable, a run was found for the tag, some view showed that run
    completed with the conclusion "success", and the verification of the
    same tag then found no expected artifact missing and got 200 from both
    download probes. *)
Theorem monitor_success_means_verified fuel m arg :
  cmd_monitor fuel m arg = MonitorExit 0 ->
  gh_ready (checks m) = true /\
  exists tag run_id k snap rep,
    tag = (if String.eqb arg EmptyString then latest_tag (checks m) else arg) /\
    tag <> EmptyString /\
    fst (discover max_attempts tag (listings m) 0) = RunFound run_id /\
    views m run_id k = Some snap /\
    run_status snap = "completed" /\ run_conclusion snap = "success" /\
    cmd_check (checks m) tag = Done rep /\
    missing_names rep = [] /\
    forall url code, In (url, code) (probes rep) -> code = "200".
Proof.
  unfold cmd_monitor. destruct (gh_ready (checks m)); cbn [negb]; [|done].
  set (tag := if String.eqb arg EmptyString then latest_tag (checks m) else arg).
  destruct (String.eqb_spec tag EmptyString) as [|Htag]; [done|].
  destruct (fst (discover max_attempts tag (listings m) 0))
    as [run_id| |] eqn:Hfound; [|done..].
  destruct (fst (poll fuel (views m run_id) (clock m) 0 EmptyString))
    eqn:Hpoll; [|done..].
  destruct (poll_success_seen _ _ _ _ _ Hpoll) as (k & snap & Hview & Hs & Hc).
  destruct (cmd_check (checks m) tag) as [rep|code|] eqn:Hcheck.
  - destruct (all_ok rep) eqn:Hok; [|done]. intros _. split; [done|].
    exists tag, run_id, k, snap, rep. do 7 (split; [done|]).
    destruct (cmd_check_with_Done _ _ _ _ Hcheck)
      as (tag' & is_draft & assets & _ & _ & _ & _ & Hnames & _ & Hprobes & Hall).
    rewrite Hok in Hall. symmetry in Hall.
    apply andb_true_iff in Hall as [Hall Hmac].
    apply andb_true_iff in Hall as [Hall Hlinux].
    apply String.eqb_eq in Hmac, Hlinux.
    split.
    + rewrite Hnames. by apply none_missing.
    + rewrite Hprobes. intros url code [[= <- <-]|[[= <- <-]|[]]]; done.
  - intros [= ->]. by apply cmd_check_with_Exit in Hcheck.
  - done.
Qed.

Lemma monitor_success_means_verified_witness :
  gh_ready (sample_check assets_signed) = true /\
  exists tag run_id k snap rep,
    tag = (if String.eqb "v0.1.2" EmptyString
           then latest_tag (sample_check assets_signed) else "v0.1.2") /\
    tag <> EmptyString /\
    fst (discover max_attempts tag
           (fun _ => Some [CiRun "4711" "Release v0.1.2"]) 0) = RunFound run_id /\
    (fun _ n => if Nat.eqb n 0 then Some (Snapshot "queued" "null" [])
                else Some (Snapshot "completed" "success" [])) run_id k = Some snap /\
    run_status snap = "completed" /\ run_conclusion snap = "success" /\
    cmd_check (sample_check assets_signed) tag = Done rep /\
    missing_names rep = [] /\
    forall url code, In (url, code) (probes rep) -> code = "200".
Proof.
  apply (monitor_success_means_verified 2
           (MonitorEnv (sample_check assets_signed)
              (fun _ => Some [CiRun "4711" "Release v0.1.2"])
              (fun _ n => if Nat.eqb n 0 then Some (Snapshot "queued" "null" [])
                          else Some (Snapshot "completed" "success" []))
              (fun _ => 0%Z))
           "v0.1.2").
  vm_compute. reflexivity.
Defined.
